(** * findAsDerivative: account derivation and the recursive call matcher

    A shallow embedding of [checkExtrinsic.js] and [findAsDerivative.js]:
    the derivation of utility sub-accounts, the recursive walk that looks
    for [utility.asDerivative] calls, and the block loop that drives it. *)

From Stdlib Require Import ZArith List String Ascii Lia.
From Stdlib Require Import Strings.Byte.
From stdpp Require Import base gmap sets list strings sorting.

Import ListNotations.

(** ** BLAKE2b

    [blake2AsU8a] is imported by the scripts from [@polkadot/util-crypto];
    it is not code of this repository.  It is the unkeyed BLAKE2b of
    RFC 7693 with a digest of [bitLength / 8] bytes; the definitions below
    follow the RFC so that the derivation can be evaluated. *)

Module Blake2b.
Local Open Scope Z_scope.

Definition w64 (x : Z) : Z := x mod 2 ^ 64.

Definition rotr64 (x n : Z) : Z :=
  w64 (Z.lor (Z.shiftr x n) (Z.shiftl x (64 - n))).

Definition IV : list Z :=
  [ 0x6a09e667f3bcc908; 0xbb67ae8584caa73b; 0x3c6ef372fe94f82b;
    0xa54ff53a5f1d36f1; 0x510e527fade682d1; 0x9b05688c2b3e6c1f;
    0x1f83d9abfb41bd6b; 0x5be0cd19137e2179 ].

Definition SIGMA : list (list nat) :=
  [ [ 0; 1; 2; 3; 4; 5; 6; 7; 8; 9; 10; 11; 12; 13; 14; 15 ];
    [ 14; 10; 4; 8; 9; 15; 13; 6; 1; 12; 0; 2; 11; 7; 5; 3 ];
    [ 11; 8; 12; 0; 5; 2; 15; 13; 10; 14; 3; 6; 7; 1; 9; 4 ];
    [ 7; 9; 3; 1; 13; 12; 11; 14; 2; 6; 5; 10; 4; 0; 15; 8 ];
    [ 9; 0; 5; 7; 2; 4; 10; 15; 14; 1; 11; 12; 6; 8; 3; 13 ];
    [ 2; 12; 6; 10; 0; 11; 8; 3; 4; 13; 7; 5; 15; 14; 1; 9 ];
    [ 12; 5; 1; 15; 14; 13; 4; 10; 0; 7; 6; 3; 9; 2; 8; 11 ];
    [ 13; 11; 7; 14; 12; 1; 3; 9; 5; 0; 15; 4; 8; 6; 2; 10 ];
    [ 6; 15; 14; 9; 11; 3; 0; 8; 12; 2; 13; 7; 1; 4; 10; 5 ];
    [ 10; 2; 8; 4; 7; 6; 1; 5; 15; 11; 9; 14; 3; 12; 13; 0 ] ]%nat.

Definition word (v : list Z) (i : nat) : Z := nth i v 0.

Fixpoint set_word (v : list Z) (i : nat) (x : Z) : list Z :=
  match v, i with
  | [], _ => []
  | _ :: r, O => x :: r
  | y :: r, S j => y :: set_word r j x
  end.

(** The mixing function G of RFC 7693, section 3.1. *)
Definition G (v : list Z) (a b c d : nat) (x y : Z) : list Z :=
  let v := set_word v a (w64 (word v a + word v b + x)) in
  let v := set_word v d (rotr64 (Z.lxor (word v d) (word v a)) 32) in
  let v := set_word v c (w64 (word v c + word v d)) in
  let v := set_word v b (rotr64 (Z.lxor (word v b) (word v c)) 24) in
  let v := set_word v a (w64 (word v a + word v b + y)) in
  let v := set_word v d (rotr64 (Z.lxor (word v d) (word v a)) 16) in
  let v := set_word v c (w64 (word v c + word v d)) in
  set_word v b (rotr64 (Z.lxor (word v b) (word v c)) 63).

Definition round (m : list Z) (v : list Z) (r : nat) : list Z :=
  let s := nth (r mod 10) SIGMA [] in
  let mw (k : nat) := word m (nth k s O) in
  let v := G v 0 4 8 12 (mw 0%nat) (mw 1%nat) in
  let v := G v 1 5 9 13 (mw 2%nat) (mw 3%nat) in
  let v := G v 2 6 10 14 (mw 4%nat) (mw 5%nat) in
  let v := G v 3 7 11 15 (mw 6%nat) (mw 7%nat) in
  let v := G v 0 5 10 15 (mw 8%nat) (mw 9%nat) in
  let v := G v 1 6 11 12 (mw 10%nat) (mw 11%nat) in
  let v := G v 2 7 8 13 (mw 12%nat) (mw 13%nat) in
  G v 3 4 9 14 (mw 14%nat) (mw 15%nat).

(** The compression function F: [h] is the chaining value, [m] the 16
    message words, [t] the byte offset and [final] the last-block flag. *)
Definition F (h m : list Z) (t : Z) (final : bool) : list Z :=
  let v := firstn 8 h ++ IV in
  let v := set_word v 12 (Z.lxor (word v 12) (w64 t)) in
  let v := set_word v 13 (Z.lxor (word v 13) (w64 (Z.shiftr t 64))) in
  let v := if final then set_word v 14 (Z.lxor (word v 14) (2 ^ 64 - 1)) else v in
  let v := fold_left (round m) (seq 0 12) v in
  map (fun i => Z.lxor (Z.lxor (word h i) (word v i)) (word v (i + 8))) (seq 0 8).

Definition byte_to_Z (b : byte) : Z := Z.of_N (Byte.to_N b).

Definition byte_of_Z (z : Z) : byte :=
  match Byte.of_N (Z.to_N (z mod 256)) with
  | Some b => b
  | None => x00
  end.

(** Little-endian packing of bytes into a 64-bit word and back. *)
Fixpoint le_word (bs : list byte) : Z :=
  match bs with
  | [] => 0
  | b :: r => byte_to_Z b + 256 * le_word r
  end.

Definition le_bytes (x : Z) : list byte :=
  map (fun i => byte_of_Z (Z.shiftr x (8 * Z.of_nat i))) (seq 0 8).

(** The 16 words of a block of at most 128 bytes, zero padded. *)
Definition block_words (blk : list byte) : list Z :=
  map (fun i => le_word (firstn 8 (skipn (8 * i) blk))) (seq 0 16).

(** Absorbs the message block by block; the last block (also the only,
    empty, one of the empty message) is compressed with the final flag. *)
Fixpoint absorb (fuel : nat) (h : list Z) (msg : list byte) (t : Z) : list Z :=
  match fuel with
  | O => F h (block_words msg) (t + Z.of_nat (length msg)) true
  | S fuel' =>
      if (length msg <=? 128)%nat
      then F h (block_words msg) (t + Z.of_nat (length msg)) true
      else absorb fuel' (F h (block_words (firstn 128 msg)) (t + 128) false)
                  (skipn 128 msg) (t + 128)
  end.

(** Unkeyed BLAKE2b with an [nn]-byte digest. *)
Definition blake2b (nn : nat) (msg : list byte) : list byte :=
  let h0 := set_word IV 0 (Z.lxor (word IV 0) (Z.lxor 0x01010000 (Z.of_nat nn))) in
  let h := absorb (length msg / 128) h0 msg 0 in
  firstn nn (flat_map le_bytes h).

End Blake2b.

(** Modelled from the spec: the hash function is not code of this
    repository (the scripts import [blake2AsU8a(raw, bitLength)] from
    @polkadot/util-crypto).  The spec asks for a deterministic 256-bit hash
    with a 32-byte digest and the source calls BLAKE2 with bit length 256;
    this is BLAKE2b as above with a digest of [bitLength / 8] bytes. *)
Definition blake2AsU8a (raw : list byte) (bitLength : nat) : list byte :=
  Blake2b.blake2b (bitLength / 8) raw.


(** ** JavaScript values

    The scripts are duck typed: they read the properties [section],
    [method] and [args] of whatever the chain client hands them and call
    [toNumber], [toArray], [toHuman] and [toString] on it.  A value is
    modelled by what those reads and calls can observe. *)

#[local] Set Warnings "-register-all".

Inductive Val : Type :=
| VUndef                                (* undefined *)
| VNull                                 (* null *)
| VStr (s : string)                     (* a primitive string *)
| VInt (n : Z)                          (* a codec integer, with toNumber() *)
| VArr (xs : list Val)                  (* a plain Array *)
| VVec (xs : list Val)                  (* a codec Vec: an Array with toArray() *)
| VObj (section method args : Val).     (* an object, seen through the three
                                           properties the scripts read *)

Inductive Key : Type := Ksection | Kmethod | Kargs.

Inductive Exn : Type :=
| TypeError (what : string)             (* raised by the language *)
| ApiError (what : string).             (* raised by the chain client *)

Inductive Res (A : Type) : Type :=
| Ok (a : A)
| Throw (e : Exn).
Arguments Ok {A} a.
Arguments Throw {A} e.

Definition rbind {A B} (r : Res A) (k : A -> Res B) : Res B :=
  match r with
  | Ok a => k a
  | Throw e => Throw e
  end.

Fixpoint rmapM {A B} (f : A -> Res B) (xs : list A) : Res (list B) :=
  match xs with
  | [] => Ok []
  | x :: r => rbind (f x) (fun y => rbind (rmapM f r) (fun ys => Ok (y :: ys)))
  end.

(** [v.key]: reading a property of undefined or null raises; a value
    without the property gives undefined. *)
Definition prop (v : Val) (k : Key) : Res Val :=
  match v with
  | VUndef | VNull => Throw (TypeError "Cannot read properties of undefined")
  | VObj s m a => Ok match k with Ksection => s | Kmethod => m | Kargs => a end
  | _ => Ok VUndef
  end.

(** [v[i]] *)
Definition index (v : Val) (i : nat) : Res Val :=
  match v with
  | VUndef | VNull => Throw (TypeError "Cannot read properties of undefined")
  | VArr xs | VVec xs => Ok (nth i xs VUndef)
  | VStr s => Ok match String.get i s with
                 | Some c => VStr (String c EmptyString)
                 | None => VUndef
                 end
  | _ => Ok VUndef
  end.

(** Truthiness, as tested by [&&], [||] and [!]. *)
Definition truthy (v : Val) : bool :=
  match v with
  | VUndef | VNull => false
  | VStr s => negb (String.eqb s "")
  | _ => true
  end.

(** [v === 'lit'] for a string literal. *)
Definition is_str (v : Val) (lit : string) : bool :=
  match v with
  | VStr s => String.eqb s lit
  | _ => false
  end.

(** [v.toNumber()]: only codec integers have the method, and it refuses
    values beyond 53 bits. *)
Definition toNumber (v : Val) : Res Z :=
  match v with
  | VUndef | VNull => Throw (TypeError "Cannot read properties of undefined")
  | VInt n => if (Z.abs n <? 2 ^ 53)%Z then Ok n
              else Throw (ApiError "Number can only safely store up to 53 bits")
  | _ => Throw (TypeError "toNumber is not a function")
  end.

(** The ternary of checkExtrinsic.js lines 97-101:
    [typeof callsVec.toArray === 'function' ? callsVec.toArray()
       : Array.isArray(callsVec) ? callsVec : []]. *)
Definition toCallsArr (callsVec : Val) : Res (list Val) :=
  match callsVec with
  | VUndef | VNull => Throw (TypeError "Cannot read properties of undefined")
  | VVec xs => Ok xs
  | VArr xs => Ok xs
  | _ => Ok []
  end.

(** ToInt32, applied by [&] to its operands. *)
Definition toInt32 (n : Z) : Z := ((n + 2 ^ 31) mod 2 ^ 32 - 2 ^ 31)%Z.

(** ** The account deriver *)

(** The part of [api.registry] the scripts use:
    [createType('AccountId32', x)] for a string and for a byte array, giving
    the account's raw bytes ([toU8a()]), and the account's [toString()]. *)
Record Api : Type := {
  accountFromString : string -> Res (list byte);
  accountFromU8a : list byte -> Res (list byte);
  accountToString : list byte -> string
}.

Definition DERIVATION_PREFIX : list byte := list_byte_of_string "modlpy/utilisuba".

(** checkExtrinsic.js lines 19-27. *)
Definition deriveAccountCorrect (api : Api) (signer : string) (derivativeIndex : Z)
  : Res (list byte) :=
  rbind (accountFromString api signer) (fun accountBytes =>
  let indexByte := [Blake2b.byte_of_Z (Z.land (toInt32 derivativeIndex) 0xff)] in
  let raw := DERIVATION_PREFIX ++ accountBytes ++ indexByte in
  let hash := blake2AsU8a raw 256 in
  accountFromU8a api hash).

(** findAsDerivative.js lines 160-165: the derivation written out again
    in the loop of [checkAccountDerivatives]. *)
Definition checkAccountDerivatives_derived (api : Api) (account : string) (i : Z)
  : Res (list byte) :=
  let prefix := list_byte_of_string "modlpy/utilisuba" in
  rbind (accountFromString api account) (fun accountBytes =>
  let indexByte := [Blake2b.byte_of_Z (Z.land (toInt32 i) 0xff)] in
  let raw := prefix ++ accountBytes ++ indexByte in
  let hash := blake2AsU8a raw 256 in
  accountFromU8a api hash).

(** The buffer the scheme hashes for parent bytes [P] and index [i]:
    the prefix, the parent and the byte [i & 0xff]. *)
Definition derivationBuffer (P : list byte) (i : Z) : list byte :=
  list_byte_of_string "modlpy/utilisuba" ++ P ++ [Blake2b.byte_of_Z (Z.land i 0xff)].

(** ** Scan state *)

(** The object written by [writeDetail] (lines 79-87). *)
Record MatchRecord : Type := {
  block : Z;
  extrinsicIndex : nat;
  signer : string;
  derivativeIndex : Z;
  derivedAccount : string;
  innerCall : string;
  innerCallArgs : list Val
}.

(** [counters] of [main] (line 271). *)
Record Counters : Type := {
  total : Z;
  unique : gset string
}.

(** The module-level [debugCounters] (lines 52-56). *)
Record DebugCounters : Type := {
  totalExtrinsics : Z;
  utilityExtrinsics : Z;
  utilityMethods : gmap string Z
}.

(** Everything the scan mutates; [sink] is the sequence of records handed
    to [writeDetail], in emission order.  Console output is not modelled. *)
Record World : Type := {
  counters : Counters;
  debugCounters : DebugCounters;
  sink : list MatchRecord
}.

Definition M (A : Type) : Type := World -> Res A * World.

Definition ret {A} (a : A) : M A := fun w => (Ok a, w).

Definition bind {A B} (m : M A) (k : A -> M B) : M B :=
  fun w => match m w with
           | (Ok a, w') => k a w'
           | (Throw e, w') => (Throw e, w')
           end.

Definition lift {A} (r : Res A) : M A := fun w => (r, w).

Definition modify (f : World -> World) : M unit := fun w => (Ok tt, f w).

Declare Scope js_scope.
Delimit Scope js_scope with js.
Notation "x <- m ;; k" := (bind m (fun x => k))
  (at level 100, m at next level, right associativity) : js_scope.
Notation "m ;;; k" := (bind m (fun _ => k))
  (at level 100, right associativity) : js_scope.
Local Open Scope js_scope.

(** [xs.forEach(f)]: in order; an exception ends the loop. *)
Definition forEach {A} (f : A -> M unit) : list A -> M unit :=
  fix go (xs : list A) : M unit :=
    match xs with
    | [] => ret tt
    | x :: r => fun w => match f x w with
                         | (Ok _, w') => go r w'
                         | (Throw e, w') => (Throw e, w')
                         end
    end.

(** The number of constructors of a value; the matcher's recursion goes
    to strictly smaller arguments. *)
Fixpoint vsize (v : Val) : nat :=
  let fix vsizes (xs : list Val) : nat :=
    match xs with
    | [] => O
    | x :: r => vsize x + vsizes r
    end in
  match v with
  | VArr xs | VVec xs => S (vsizes xs)
  | VObj s m a => S (vsize s + vsize m + vsize a)
  | _ => 1
  end.

(** Whether some object inside [v], at any depth, has the action
    [asDerivative], that is a [method] property equal to that string. *)
Fixpoint mentionsAsDerivative (v : Val) : bool :=
  let fix any (xs : list Val) : bool :=
    match xs with
    | [] => false
    | x :: r => mentionsAsDerivative x || any r
    end in
  match v with
  | VArr xs | VVec xs => any xs
  | VObj s m a =>
      is_str m "asDerivative"
      || mentionsAsDerivative s || mentionsAsDerivative m || mentionsAsDerivative a
  | _ => false
  end.

(** The array a batch iterates over: [callArgs[0]] as an array, empty
    when that is no sequence or cannot be read. *)
Definition callsOf (callArgs : Val) : list Val :=
  match index callArgs 0 with
  | Ok callsVec => match toCallsArr callsVec with
                   | Ok callsArr => callsArr
                   | Throw _ => []
                   end
  | Throw _ => []
  end.

(** ** The recursive call matcher *)

Section Matcher.

(** What the client library's codecs answer to [toString()] (for values
    that are not strings) and to [toHuman()]; the scripts only pass these
    results on. *)
Variable objToString : Val -> string.
Variable toHuman : Val -> Val.

(** [v.toString()] *)
Definition toString (v : Val) : Res string :=
  match v with
  | VUndef | VNull => Throw (TypeError "Cannot read properties of undefined")
  | VStr s => Ok s
  | _ => Ok (objToString v)
  end.

(** [`${v}`] *)
Definition template (v : Val) : string :=
  match v with
  | VUndef => "undefined"
  | VNull => "null"
  | VStr s => s
  | _ => objToString v
  end.

(** [a.toHuman()]: a method of codec values only. *)
Definition callToHuman (a : Val) : Res Val :=
  match a with
  | VUndef | VNull => Throw (TypeError "Cannot read properties of undefined")
  | VStr _ | VArr _ => Throw (TypeError "toHuman is not a function")
  | _ => Ok (toHuman a)
  end.

(** [args.map(a => a.toHuman())] *)
Definition humanArgs (args : Val) : Res (list Val) :=
  match args with
  | VUndef | VNull => Throw (TypeError "Cannot read properties of undefined")
  | VArr xs | VVec xs => rmapM callToHuman xs
  | _ => Throw (TypeError "map is not a function")
  end.

(** [callMethod.section === 'utility' && p(callMethod.method)] *)
Definition utilityCall (callMethod : Val) (p : Val -> bool) : Res bool :=
  rbind (prop callMethod Ksection) (fun sec =>
  if is_str sec "utility"
  then rbind (prop callMethod Kmethod) (fun m => Ok (p m))
  else Ok false).

(** Lines 61-62:
    [utilityMethods[methodName] = (utilityMethods[methodName] || 0) + 1].
    Keys inherited from Object.prototype are not modelled. *)
Definition bumpUtilityMethod (methodName : string) : M unit :=
  modify (fun w =>
    let d := debugCounters w in
    {| counters := counters w;
       debugCounters :=
         {| totalExtrinsics := totalExtrinsics d;
            utilityExtrinsics := utilityExtrinsics d;
            utilityMethods :=
              <[methodName := (default 0 (utilityMethods d !! methodName) + 1)%Z]>
                (utilityMethods d) |};
       sink := sink w |}).

(** Lines 71-72: [counters.unique.add(derivedAccount); counters.total++]. *)
Definition countMatch (derivedAccount : string) : M unit :=
  modify (fun w =>
    {| counters := {| total := (total (counters w) + 1)%Z;
                      unique := {[derivedAccount]} ∪ unique (counters w) |};
       debugCounters := debugCounters w;
       sink := sink w |}).

(** The [writeDetail] that [main] passes (lines 309-313), with the output
    stream seen as the sequence of records written to it. *)
Definition writeDetail_main (detail : MatchRecord) : M unit :=
  modify (fun w =>
    {| counters := counters w;
       debugCounters := debugCounters w;
       sink := sink w ++ [detail] |}).

(** Lines 85-86: the [innerCall] and [innerCallArgs] fields of the record,
    [`${innerCall.method.section}.${innerCall.method.method}`] and
    [innerCall.args.map(a => a.toHuman())]. *)
Definition innerCallDetail (innerCall : Val) : Res (string * list Val) :=
  rbind (prop innerCall Kmethod) (fun im =>
  rbind (prop im Ksection) (fun isec =>
  rbind (prop im Kmethod) (fun imeth =>
  rbind (prop innerCall Kargs) (fun iargs =>
  rbind (humanArgs iargs) (fun hargs =>
  Ok ((template isec ++ "." ++ template imeth)%string, hargs)))))).

(** Lines 67-88: the body of the [asDerivative] branch. *)
Definition matchAsDerivative (callArgs : Val) (api : Api) (blockNumber : Z)
    (extrinsicIndex : nat) (signer : string)
    (writeDetail : MatchRecord -> M unit) : M unit :=
  a0 <- lift (index callArgs 0) ;;
  derivativeIndex <- lift (toNumber a0) ;;
  innerCall <- lift (index callArgs 1) ;;
  derived <- lift (deriveAccountCorrect api signer derivativeIndex) ;;
  let derivedAccount := accountToString api derived in
  countMatch derivedAccount ;;;
  detail <- lift (innerCallDetail innerCall) ;;
  writeDetail
    {| block := blockNumber;
       extrinsicIndex := extrinsicIndex;
       signer := signer;
       derivativeIndex := derivativeIndex;
       derivedAccount := derivedAccount;
       innerCall := fst detail;
       innerCallArgs := snd detail |}.

(** Lines 96-107: [callsVec = callArgs[0]], the array [callsArr] taken
    from it, and [callsArr.forEach(f)].  The elements handed to [f] are
    components of [callArgs]; where [callArgs[0]] is no sequence the array
    is empty and [f] is not called (lemma [forEachCall_eq] gives the
    reading through [index] and [toCallsArr]). *)
Definition forEachCall (callArgs : Val) (f : Val -> M unit) : M unit :=
  match callArgs with
  | VArr (callsVec :: _) | VVec (callsVec :: _) =>
      match callsVec with
      | VVec callsArr | VArr callsArr => forEach f callsArr
      | _ => callsArr <- lift (toCallsArr callsVec) ;; ret tt
      end
  | _ =>
      callsVec <- lift (index callArgs 0) ;;
      callsArr <- lift (toCallsArr callsVec) ;;
      ret tt
  end.

(** Lines 108-109: [if (nested && nested.method)] and the values
    [nested.method], [nested.args] passed on. *)
Definition onNested (nested : Val) (k : Val -> Val -> M unit) : M unit :=
  match nested with
  | VObj _ m a => if truthy m then k m a else ret tt
  | _ => ret tt
  end.

(** checkExtrinsic.js lines 58-123.  [counters] and [debugCounters] are
    the fields of the [World] the computation runs in. *)
Fixpoint checkAsDerivative (callMethod callArgs : Val) (api : Api)
    (blockNumber : Z) (extrinsicIndex : nat) (signer : string)
    (writeDetail : MatchRecord -> M unit) (depth : nat) {struct callArgs}
  : M unit :=
  tally <- (if Nat.eqb depth 0
            then sec <- lift (prop callMethod Ksection) ;; ret (is_str sec "utility")
            else ret false) ;;
  (if (tally : bool)
   then m <- lift (prop callMethod Kmethod) ;;
        methodName <- lift (toString m) ;;
        bumpUtilityMethod methodName
   else ret tt) ;;;
  isAsDerivative <- lift (utilityCall callMethod (fun m => is_str m "asDerivative")) ;;
  if (isAsDerivative : bool)
  then matchAsDerivative callArgs api blockNumber extrinsicIndex signer writeDetail
  else
    isBatch <- lift (utilityCall callMethod
                       (fun m => is_str m "batch" || is_str m "batchAll")) ;;
    if (isBatch : bool)
    then forEachCall callArgs (fun nested =>
           onNested nested (fun m a =>
             checkAsDerivative m a api blockNumber extrinsicIndex signer
                               writeDetail (S depth)))
    else ret tt.

End Matcher.

(** ** The block loop of checkExtrinsic.js *)

(** An extrinsic as [main] reads it: [ex.signer] (absent when falsy,
    otherwise its [toString()]), [ex.method] and [ex.args]. *)
Record Extrinsic : Type := {
  ex_signer : option string;
  ex_method : Val;
  ex_args : Val
}.

(** [xs.forEach((x, idx) => f(x, idx))] *)
Definition forEachIdx {A} (f : A -> nat -> M unit) : nat -> list A -> M unit :=
  fix go (idx : nat) (xs : list A) : M unit :=
    match xs with
    | [] => ret tt
    | x :: r => fun w => match f x idx w with
                         | (Ok _, w') => go (S idx) r w'
                         | (Throw e, w') => (Throw e, w')
                         end
    end.

(** [try { body } catch (error) { console.error(...) }] *)
Definition tryCatch (body : M unit) : M unit :=
  fun w => (Ok tt, snd (body w)).

(** [chunkArray] (lines 43-49).  The loop variable [i] advances by [size];
    [fuel] bounds the number of rounds, and [length arr] rounds are enough
    when [0 < size] (for [size = 0] the source does not terminate). *)
Fixpoint chunkArray_loop {A} (fuel : nat) (arr : list A) (size i : nat)
  : list (list A) :=
  match fuel with
  | O => []
  | S fuel' =>
      if (i <? length arr)%nat
      then firstn size (skipn i arr) :: chunkArray_loop fuel' arr size (i + size)
      else []
  end.

Definition chunkArray {A} (arr : list A) (size : nat) : list (list A) :=
  chunkArray_loop (length arr) arr size 0.

(** [Array.from({ length: endBlock - startBlock + 1 }, (_, i) => startBlock + i)] *)
Definition allBlocks (startBlock endBlock : Z) : list Z :=
  map (fun i => (startBlock + Z.of_nat i)%Z)
      (seq 0 (Z.to_nat (endBlock - startBlock + 1))).

Definition initialWorld : World :=
  {| counters := {| total := 0; unique := ∅ |};
     debugCounters :=
       {| totalExtrinsics := 0; utilityExtrinsics := 0; utilityMethods := ∅ |};
     sink := [] |}.

Section Scanner.

Variable objToString : Val -> string.
Variable toHuman : Val -> Val.
Variable api : Api.

(** The chain as the scan sees it: the extrinsics of block [n], or the
    error with which fetching it is rejected.  [retry] re-issues the same
    request, so a chain that answers a request the same way every time is
    fetched once here. *)
Variable chain : Z -> Res (list Extrinsic).

Definition bumpTotalExtrinsics : M unit :=
  modify (fun w =>
    let d := debugCounters w in
    {| counters := counters w;
       debugCounters :=
         {| totalExtrinsics := (totalExtrinsics d + 1)%Z;
            utilityExtrinsics := utilityExtrinsics d;
            utilityMethods := utilityMethods d |};
       sink := sink w |}).

Definition bumpUtilityExtrinsics : M unit :=
  modify (fun w =>
    let d := debugCounters w in
    {| counters := counters w;
       debugCounters :=
         {| totalExtrinsics := totalExtrinsics d;
            utilityExtrinsics := (utilityExtrinsics d + 1)%Z;
            utilityMethods := utilityMethods d |};
       sink := sink w |}).

(** The callback of [extrinsics.forEach] in [main] (lines 298-325). *)
Definition scanExtrinsic (blockNumber : Z) (ex : Extrinsic) (idx : nat) : M unit :=
  bumpTotalExtrinsics ;;;
  match ex_signer ex with
  | None => ret tt
  | Some signerString =>
      sec <- lift (prop (ex_method ex) Ksection) ;;
      if is_str sec "utility"
      then
        bumpUtilityExtrinsics ;;;
        margs <- lift (prop (ex_method ex) Kargs) ;;
        let callArgs := if truthy margs then margs
                        else if truthy (ex_args ex) then ex_args ex
                        else VArr [] in
        checkAsDerivative objToString toHuman (ex_method ex) callArgs api
                          blockNumber idx signerString writeDetail_main 0
      else ret tt
  end.

(** Lines 284-326: the body of the [try] for one batch of block numbers. *)
Definition scanBatch (batch : list Z) : M unit :=
  blocks <- lift (rmapM chain batch) ;;
  forEach (fun '(blockNumber, extrinsics) =>
             forEachIdx (scanExtrinsic blockNumber) 0 extrinsics)
          (combine batch blocks).

(** Lines 272-338: the scan of the range, batch by batch. *)
Definition scanBlocks (startBlock endBlock : Z) (BATCH_SIZE : nat) : M unit :=
  forEach (fun batch => tryCatch (scanBatch batch))
          (chunkArray (allBlocks startBlock endBlock) BATCH_SIZE).

End Scanner.

(** ** The quick scan of findAsDerivative.js *)

Section QuickScan.

Variable toHuman : Val -> Val.

(** [calls.toHuman ? calls.toHuman() : calls] *)
Definition humanOrSelf (calls : Val) : Val :=
  match calls with
  | VInt _ | VVec _ | VObj _ _ _ => toHuman calls
  | _ => calls
  end.

Definition isArray (v : Val) : option (list Val) :=
  match v with
  | VArr xs | VVec xs => Some xs
  | _ => None
  end.

(** The per-block variables [hasAsDerivative], [utilityCount] and the
    running [found] of [findAsDerivativeBlocks]. *)
Record Tally : Type := {
  hasAsDerivative : bool;
  utilityCount : Z;
  found : Z
}.

Definition hit (t : Tally) : Tally :=
  {| hasAsDerivative := true; utilityCount := utilityCount t; found := (found t + 1)%Z |}.

(** Line 73: [call && call.section === 'utility' && call.method === 'asDerivative']. *)
Definition humanCallMatches (call : Val) : bool :=
  match call with
  | VObj s m _ => is_str s "utility" && is_str m "asDerivative"
  | _ => false
  end.

(** The callback of [extrinsics.forEach] in [findAsDerivativeBlocks]
    (lines 58-81), for [ex.method = method]. *)
Definition quickScanExtrinsic (method : Val) (t : Tally) : Res Tally :=
  rbind (prop method Ksection) (fun sec =>
  if is_str sec "utility"
  then
    let t := {| hasAsDerivative := hasAsDerivative t;
                utilityCount := (utilityCount t + 1)%Z;
                found := found t |} in
    rbind (prop method Kmethod) (fun m =>
    let t := if is_str m "asDerivative" then hit t else t in
    if is_str m "batch" || is_str m "batchAll"
    then
      rbind (prop method Kargs) (fun args =>
      rbind (index args 0) (fun calls =>
      if truthy calls
      then match isArray (humanOrSelf calls) with
           | Some callsArray =>
               Ok (fold_left (fun t call => if humanCallMatches call then hit t else t)
                             callsArray t)
           | None => Ok t
           end
      else Ok t))
    else Ok t)
  else Ok t).

End QuickScan.

(** ** [retry] (checkExtrinsic.js lines 29-41) *)

Definition RPC_RETRY_LIMIT : nat := 3.
Definition RPC_RETRY_DELAY : Z := 500.

(** What a call of [retry] leaves behind: the value returned, or the
    value of [err] thrown ([None] is undefined, the value [err] has when
    [fn] was never called); the number of calls of [fn]; the milliseconds
    spent in [setTimeout]. *)
Record Retried (A : Type) : Type := {
  outcome : A + option Exn;
  calls : nat;
  waited : Z
}.
Arguments outcome {A} _.
Arguments calls {A} _.
Arguments waited {A} _.

(** The loop [for (let i = 0; i < limit; i++)] from the state it has at
    the head of round [i], with [remaining = limit - i].  [fn i] is what
    the [i]-th call of the effectful [fn(...args)] answers. *)
Fixpoint retry_from {A} (fn : nat -> Res A) (remaining i : nat) (err : option Exn)
    (ms : Z) : Retried A :=
  match remaining with
  | O => {| outcome := inr err; calls := i; waited := ms |}
  | S remaining' =>
      match fn i with
      | Ok a => {| outcome := inl a; calls := S i; waited := ms |}
      | Throw e =>
          retry_from fn remaining' (S i) (Some e)
                     (ms + RPC_RETRY_DELAY * (Z.of_nat i + 1))%Z
      end
  end.

Definition retry {A} (fn : nat -> Res A) (limit : nat) : Retried A :=
  retry_from fn limit 0 None 0.

(** ** [findAsDerivativeBlocks] (findAsDerivative.js lines 4-137) *)

(** [found] and [foundBlocks]. *)
Record QuickState : Type := {
  q_found : Z;
  q_foundBlocks : list Z
}.

(** Line 23: [Math.max(1, currentBlock - blocksToScan)]. *)
Definition quickStartBlock (currentBlock blocksToScan : Z) : Z :=
  Z.max 1 (currentBlock - blocksToScan).

Definition batchSize : Z := 100.

Section QuickLoop.

Variable toHuman : Val -> Val.
Variable chain : Z -> Res (list Extrinsic).

(** [extrinsics.forEach(...)] of lines 58-81 on the running [found] and
    the block's [hasAsDerivative]; [utilityCount] only feeds a log line.
    An exception leaves what the earlier extrinsics did. *)
Fixpoint quickScanExtrinsics (extrinsics : list Extrinsic) (t : Tally)
  : Res unit * Tally :=
  match extrinsics with
  | [] => (Ok tt, t)
  | ex :: rest =>
      match quickScanExtrinsic toHuman (ex_method ex) t with
      | Ok t' => quickScanExtrinsics rest t'
      | Throw e => (Throw e, t)
      end
  end.

(** Lines 51-89 for one block of a batch. *)
Definition quickScanBlock (blockNum : Z) (extrinsics : list Extrinsic) (st : QuickState)
  : Res unit * QuickState :=
  let t0 := {| hasAsDerivative := false; utilityCount := 0; found := q_found st |} in
  match quickScanExtrinsics extrinsics t0 with
  | (Ok _, t) =>
      (Ok tt, {| q_found := found t;
                 q_foundBlocks := if hasAsDerivative t
                                  then q_foundBlocks st ++ [blockNum]
                                  else q_foundBlocks st |})
  | (Throw e, t) =>
      (Throw e, {| q_found := found t; q_foundBlocks := q_foundBlocks st |})
  end.

Fixpoint quickScanBlocks (blocks : list (Z * list Extrinsic)) (st : QuickState)
  : Res unit * QuickState :=
  match blocks with
  | [] => (Ok tt, st)
  | (blockNum, extrinsics) :: rest =>
      match quickScanBlock blockNum extrinsics st with
      | (Ok _, st') => quickScanBlocks rest st'
      | (Throw e, st') => (Throw e, st')
      end
  end.

(** Lines 35-98: the body of the loop for the batch that starts at [b];
    the block numbers [b .. endBatch] are fetched together and the
    [catch] only logs. *)
Definition quickScanBatch (b currentBlock : Z) (st : QuickState) : QuickState :=
  let endBatch := Z.min (b + batchSize - 1) currentBlock in
  let blockNumbers := allBlocks b endBatch in
  match rmapM chain blockNumbers with
  | Ok blocks => snd (quickScanBlocks (combine blockNumbers blocks) st)
  | Throw _ => st
  end.

(** Line 32: [for (let b = startBlock; b <= currentBlock; b += batchSize)];
    [fuel] bounds the number of rounds. *)
Fixpoint quickScanLoop (fuel : nat) (b currentBlock : Z) (st : QuickState) : QuickState :=
  match fuel with
  | O => st
  | S fuel' =>
      if (b <=? currentBlock)%Z
      then quickScanLoop fuel' (b + batchSize) currentBlock (quickScanBatch b currentBlock st)
      else st
  end.

(** The scan of [findAsDerivativeBlocks]: one round per started hundred
    of blocks, which [currentBlock - startBlock + 1] rounds cover. *)
Definition findAsDerivativeBlocks (currentBlock blocksToScan : Z) : QuickState :=
  let startBlock := quickStartBlock currentBlock blocksToScan in
  quickScanLoop (Z.to_nat (currentBlock - startBlock + 1)) startBlock currentBlock
                {| q_found := 0; q_foundBlocks := [] |}.

End QuickLoop.

(** ** [checkAccountDerivatives] (findAsDerivative.js lines 140-178) *)

(** A line the function prints for an index whose derived account is in
    use. *)
Record DerivativeLine : Type := {
  line_index : Z;
  line_account : string;
  line_free : Z;
  line_nonce : Z
}.

Section AccountCheck.

Variable api : Api.

(** [api.query.system.account(derived)]: the free balance and the nonce
    of an account, or the error the query is rejected with. *)
Variable accountInfo : list byte -> Res (Z * Z).

(** The loop of lines 155-175 over the indices still to probe, with the
    lines printed so far. *)
Fixpoint checkIndices (account : string) (indices : list Z) (printed : list DerivativeLine)
  : Res unit * list DerivativeLine :=
  match indices with
  | [] => (Ok tt, printed)
  | i :: rest =>
      match checkAccountDerivatives_derived api account i with
      | Throw e => (Throw e, printed)
      | Ok derived =>
          match accountInfo derived with
          | Throw e => (Throw e, printed)
          | Ok (free, nonce) =>
              checkIndices account rest
                (if (0 <? free)%Z || (0 <? nonce)%Z
                 then printed ++ [ {| line_index := i;
                                      line_account := accountToString api derived;
                                      line_free := free;
                                      line_nonce := nonce |} ]
                 else printed)
          end
      end
  end.

(** [account] is [process.env.ACCOUNT]; unset or empty, the function
    returns at once. *)
Definition checkAccountDerivatives (account : option string)
  : Res unit * list DerivativeLine :=
  match account with
  | None => (Ok tt, [])
  | Some acc =>
      if String.eqb acc "" then (Ok tt, [])
      else checkIndices acc (map Z.of_nat (seq 0 10)) []
  end.

End AccountCheck.

(** ** The details file (checkExtrinsic.js lines 268-270, 309-313, 340) *)

Definition newline : string := String (ascii_of_nat 10) EmptyString.

(** The write stream [ws] with the flag [firstDetail]. *)
Record DetailStream : Type := {
  firstDetail : bool;
  written : string
}.

(** [ws.write('['); let firstDetail = true] *)
Definition detailsOpen : DetailStream := {| firstDetail := true; written := "[" |}.

(** [writeDetail]: [ws.write((firstDetail ? '' : ',') + '\n' + json);
    firstDetail = false], for [json = JSON.stringify(detail)]. *)
Definition writeDetail_stream (stringify : MatchRecord -> string) (detail : MatchRecord)
    (ws : DetailStream) : DetailStream :=
  let json := stringify detail in
  {| firstDetail := false;
     written := (written ws ++ ((if firstDetail ws then "" else ",") ++ newline ++ json))%string |}.

(** [ws.write('\n]')] *)
Definition detailsClose (ws : DetailStream) : string :=
  (written ws ++ (newline ++ "]"))%string.

(** The text of the details file after the records [details] were handed
    to [writeDetail] in this order. *)
Definition detailsFile (stringify : MatchRecord -> string) (details : list MatchRecord)
  : string :=
  detailsClose (fold_left (fun ws detail => writeDetail_stream stringify detail ws)
                          details detailsOpen).

(** ** Concrete inputs

    Values on which the definitions above are evaluated. *)

Definition hex_digit (n : N) : ascii :=
  nth (N.to_nat n) (list_ascii_of_string "0123456789abcdef") "0"%char.

Definition u8aToHex (bs : list byte) : string :=
  string_of_list_ascii
    (flat_map (fun b => [hex_digit (Byte.to_N b / 16); hex_digit (Byte.to_N b mod 16)]) bs).

(** A registry that accepts exactly the 32-byte accounts; a string stands
    for the bytes of its characters and an account prints as hex. *)
Definition strictApi : Api :=
  {| accountFromString := fun s =>
       let bs := list_byte_of_string s in
       if (length bs =? 32)%nat then Ok bs
       else Throw (ApiError "Expected input with 32 bytes");
     accountFromU8a := fun bs =>
       if (length bs =? 32)%nat then Ok bs
       else Throw (ApiError "Expected input with 32 bytes");
     accountToString := fun bs => ("0x" ++ u8aToHex bs)%string |}.

(** A registry with a fixed-width codec that keeps the first 32 bytes of
    a longer input and rejects a shorter one. *)
Definition clippingApi : Api :=
  {| accountFromString := fun s =>
       let bs := list_byte_of_string s in
       if (32 <=? length bs)%nat then Ok (firstn 32 bs)
       else Throw (ApiError "Expected input with 32 bytes");
     accountFromU8a := fun bs =>
       if (32 <=? length bs)%nat then Ok (firstn 32 bs)
       else Throw (ApiError "Expected input with 32 bytes");
     accountToString := fun bs => ("0x" ++ u8aToHex bs)%string |}.

Definition alice : string := "ALICE-ALICE-ALICE-ALICE-ALICE-32".

(** A call object as [main] reads [ex.method]: [section], [method] and
    [args] are its own properties. *)
Definition call (section method : string) (args : list Val) : Val :=
  VObj (VStr section) (VStr method) (VArr args).

(** An item that carries a call under [method] and the call's arguments
    under [args], the way an extrinsic does. *)
Definition item (c : Val) : Val :=
  match c with
  | VObj _ _ a => VObj VUndef c a
  | _ => VObj VUndef c VUndef
  end.

Definition remark : Val := call "system" "remark" [VVec [VInt 1; VInt 2]].

(** [utility.asDerivative(5, system.remark(..))] *)
Definition asDerivative5_args : Val := VArr [VInt 5; remark].
Definition asDerivative5 : Val := VObj (VStr "utility") (VStr "asDerivative") asDerivative5_args.

(** [utility.asDerivative] that carries an index and no inner call. *)
Definition asDerivativeBare_args : Val := VArr [VInt 3].
Definition asDerivativeBare : Val := VObj (VStr "utility") (VStr "asDerivative") asDerivativeBare_args.

(** [utility.forceBatch([])], a utility call the matcher does not track. *)
Definition forceBatch_args : Val := VArr [VVec []].
Definition forceBatch : Val := VObj (VStr "utility") (VStr "forceBatch") forceBatch_args.

(** [utility.batch([system.remark(..), system.remark(..)])] *)
Definition remarkBatch_args : Val := VArr [VVec [remark; remark]].
Definition remarkBatch : Val := VObj (VStr "utility") (VStr "batch") remarkBatch_args.

(** [utility.batch([utility.batchAll([utility.asDerivative(5, remark)])])]
    with the nested calls as call objects, the shape of [ex.method]. *)
Definition nestedCalls_args : Val :=
  VArr [VVec [call "utility" "batchAll" [VVec [asDerivative5]]]].
Definition nestedCalls : Val := VObj (VStr "utility") (VStr "batch") nestedCalls_args.

(** The same nesting with every batch element an [item]. *)
Definition nestedItems_args : Val :=
  VArr [VVec [item (call "utility" "batchAll" [VVec [item asDerivative5]])]].
Definition nestedItems : Val := VObj (VStr "utility") (VStr "batch") nestedItems_args.

(** [utility.batch] decoded without arguments. *)
Definition batchNoArgs : Val := VObj (VStr "utility") (VStr "batch") VUndef.

Definition signedBy (who : string) (c : Val) : Extrinsic :=
  {| ex_signer := Some who;
     ex_method := c;
     ex_args := match c with VObj _ _ a => a | _ => VUndef end |}.

Definition unsigned (c : Val) : Extrinsic :=
  {| ex_signer := None;
     ex_method := c;
     ex_args := match c with VObj _ _ a => a | _ => VUndef end |}.

(** A chain of three blocks; only block 101 holds an [asDerivative]
    that the scan reaches. *)
Definition block100 : list Extrinsic := [unsigned asDerivative5; signedBy alice remark].
Definition block101 : list Extrinsic := [signedBy alice remark; signedBy alice asDerivative5].
Definition block102 : list Extrinsic := [signedBy alice remarkBatch].

Definition threeBlocks (n : Z) : Res (list Extrinsic) :=
  if (n =? 100)%Z then Ok block100
  else if (n =? 101)%Z then Ok block101
  else if (n =? 102)%Z then Ok block102
  else Throw (ApiError "Unable to retrieve header and parent from supplied hash").

(** The same chain with a batch without arguments in block 100. *)
Definition brokenBlocks (n : Z) : Res (list Extrinsic) :=
  if (n =? 100)%Z then Ok [signedBy alice batchNoArgs] else threeBlocks n.

Definition plainToString (v : Val) : string := "[object Object]".
Definition plainToHuman (v : Val) : Val := v.

(** ** Vocabulary of the statements *)

(** [m] relates the world it starts in to the world it ends in by [R]
    when it returns and by [E] when it raises. *)
Definition ensures {A} (R E : World -> World -> Prop) (m : M A) : Prop :=
  forall w, match m w with
            | (Ok _, w') => R w w'
            | (Throw _, w') => E w w'
            end.

(** The derived account of a record is what the deriver gives for the
    record's signer and index. *)
Definition reproducible (api : Api) (r : MatchRecord) : Prop :=
  exists d, deriveAccountCorrect api (signer r) (derivativeIndex r) = Ok d
            /\ derivedAccount r = accountToString api d.

(** A record written while walking the call of extrinsic [idx] of block
    [b], signed by [s]. *)
Definition recordOf (api : Api) (b : Z) (idx : nat) (s : string) (r : MatchRecord) : Prop :=
  block r = b /\ extrinsicIndex r = idx /\ signer r = s /\ reproducible api r.

(** A record of extrinsic [idx] of block [b], and a record of block [b]. *)
Definition recordAt (api : Api) (b : Z) (idx : nat) (r : MatchRecord) : Prop :=
  (block r, extrinsicIndex r) = (b, idx) /\ reproducible api r.

Definition recordIn (api : Api) (b : Z) (r : MatchRecord) : Prop :=
  block r = b /\ reproducible api r.

(** Neither the call nor its arguments hold an [asDerivative] action. *)
Definition clean (callMethod callArgs : Val) : Prop :=
  mentionsAsDerivative callMethod = false /\ mentionsAsDerivative callArgs = false.

(** From [w] to [w'] the records [emitted] were appended to the sink, all
    satisfying [G]; [total] grew by their number plus [extra], and
    [unique] grew by at most as much. *)
Definition Emitted (G : MatchRecord -> Prop) (extra : Z) (w w' : World) : Prop :=
  exists emitted,
    sink w' = sink w ++ emitted
    /\ Forall G emitted
    /\ total (counters w') = (total (counters w) + Z.of_nat (length emitted) + extra)%Z
    /\ unique (counters w) ⊆ unique (counters w')
    /\ (Z.of_nat (size (unique (counters w')))
        <= Z.of_nat (size (unique (counters w))) + Z.of_nat (length emitted) + extra)%Z.

(** As [Emitted], with at most one match counted and not written: the
    state in which an exception can leave the walk. *)
Definition Interrupted (G : MatchRecord -> Prop) (w w' : World) : Prop :=
  exists extra, (0 <= extra <= 1)%Z /\ Emitted G extra w w'.

(** As [Emitted], with any number of matches counted and not written. *)
Definition Counted (G : MatchRecord -> Prop) (w w' : World) : Prop :=
  exists extra, (0 <= extra)%Z /\ Emitted G extra w w'.

(** Nothing was emitted and the scan counters are as they were. *)
Definition Silent (w w' : World) : Prop :=
  sink w' = sink w /\ counters w' = counters w.

(** Nothing but the debug tally of utility method names has changed. *)
Definition OnlyTally (w w' : World) : Prop :=
  Silent w w'
  /\ totalExtrinsics (debugCounters w') = totalExtrinsics (debugCounters w)
  /\ utilityExtrinsics (debugCounters w') = utilityExtrinsics (debugCounters w).

(** The order of emission: by block, then by extrinsic index. *)
Definition key (r : MatchRecord) : Z * nat := (block r, extrinsicIndex r).

Definition key_le (k1 k2 : Z * nat) : Prop :=
  (fst k1 < fst k2)%Z \/ (fst k1 = fst k2 /\ snd k1 <= snd k2).

Definition precedes (r1 r2 : MatchRecord) : Prop := key_le (key r1) (key r2).

Definition ascending (rs : list MatchRecord) : Prop := StronglySorted precedes rs.

(** The records written so far are in order and none lies beyond the
    position [k] of the scan, or beyond the blocks before [b]. *)
Definition upTo (k : Z * nat) (w : World) : Prop :=
  ascending (sink w) /\ Forall (fun r => key_le (key r) k) (sink w).

Definition before (b : Z) (w : World) : Prop :=
  ascending (sink w) /\ Forall (fun r => (block r < b)%Z) (sink w).

(** The derived accounts of a list of records, as a set. *)
Definition accountsOf (rs : list MatchRecord) : gset string :=
  list_to_set (map derivedAccount rs).

(** The sum of the tallies of [debugCounters.utilityMethods]. *)
Definition tallySum (m : gmap string Z) : Z :=
  map_fold (fun _ v acc => (v + acc)%Z) 0%Z m.

(** The number of elements of a batch that line 73 of findAsDerivative.js
    counts. *)
Definition countMatches (callsArray : list Val) : Z :=
  Z.of_nat (length (filter (fun c => humanCallMatches c = true) callsArray)).

(** From [w] to [w'] records were appended to the sink and the unique set
    holds, beside what it held, at least their derived accounts
    ([Covered]) or exactly their derived accounts ([Matched]). *)
Definition Covered (w w' : World) : Prop :=
  exists emitted,
    sink w' = sink w ++ emitted
    /\ unique (counters w) ∪ accountsOf emitted ⊆ unique (counters w').

Definition Matched (w w' : World) : Prop :=
  exists emitted,
    sink w' = sink w ++ emitted
    /\ unique (counters w') = unique (counters w) ∪ accountsOf emitted.

(** The record [r] belongs to block [b] and its index points, among the
    extrinsics [exs] of that block, at an extrinsic signed by the record's
    signer whose top-level call is in the utility section. *)
Definition pointsTo (b : Z) (exs : list Extrinsic) (r : MatchRecord) : Prop :=
  block r = b
  /\ exists ex, nth_error exs (extrinsicIndex r) = Some ex
                /\ ex_signer ex = Some (signer r)
                /\ prop (ex_method ex) Ksection = Ok (VStr "utility").

(** The debug counters are as they were ([DebugKept]), or differ by one
    more tally of the method [name] ([Tallied]). *)
Definition DebugKept (w w' : World) : Prop := debugCounters w' = debugCounters w.

Definition Tallied (name : string) (w w' : World) : Prop :=
  totalExtrinsics (debugCounters w') = totalExtrinsics (debugCounters w)
  /\ utilityExtrinsics (debugCounters w') = utilityExtrinsics (debugCounters w)
  /\ utilityMethods (debugCounters w')
     = <[name := (default 0 (utilityMethods (debugCounters w) !! name) + 1)%Z]>
         (utilityMethods (debugCounters w)).

(** The debug counters are consistent: no more utility methods tallied
    than utility extrinsics seen, and no more of these than extrinsics. *)
Definition debugSound (d : DebugCounters) : Prop :=
  (0 <= tallySum (utilityMethods d) <= utilityExtrinsics d)%Z
  /\ (utilityExtrinsics d <= totalExtrinsics d)%Z.

(** The name under which a top-level call is tallied: its method as a
    string, when the call is in the utility section and the method can be
    read. *)
Definition topLevelName (objToString : Val -> string) (callMethod : Val) : option string :=
  match prop callMethod Ksection with
  | Ok sec =>
      if is_str sec "utility"
      then match rbind (prop callMethod Kmethod) (toString objToString) with
           | Ok name => Some name
           | Throw _ => None
           end
      else None
  | Throw _ => None
  end.

(** From [w] to [w'] the debug counters have grown, the tallies by no
    more than the utility extrinsics and these by no more than the
    extrinsics. *)
Definition DebugGrows (w w' : World) : Prop :=
  let d := debugCounters w in
  let d' := debugCounters w' in
  (0 <= tallySum (utilityMethods d') - tallySum (utilityMethods d)
     <= utilityExtrinsics d' - utilityExtrinsics d)%Z
  /\ (utilityExtrinsics d' - utilityExtrinsics d
      <= totalExtrinsics d' - totalExtrinsics d)%Z.

(** Block [b] was fetched and holds an extrinsic whose top-level call is
    in the utility section. *)
Definition holdsUtilityExtrinsic (chain : Z -> Res (list Extrinsic)) (b : Z) : Prop :=
  exists exs ex, chain b = Ok exs /\ In ex exs
                 /\ prop (ex_method ex) Ksection = Ok (VStr "utility").

(** The state of the quick scan before block [lo]: the blocks found are
    in ascending order, lie in the scanned range below [lo] and hold a
    utility extrinsic, and there are no more of them than matches
    counted. *)
Definition quickInv (chain : Z -> Res (list Extrinsic)) (startBlock currentBlock lo : Z)
    (st : QuickState) : Prop :=
  StronglySorted Z.lt (q_foundBlocks st)
  /\ Forall (fun b => (startBlock <= b <= currentBlock)%Z /\ (b < lo)%Z
                       /\ holdsUtilityExtrinsic chain b) (q_foundBlocks st)
  /\ (Z.of_nat (length (q_foundBlocks st)) <= q_found st)%Z.

(** A line printed by [checkAccountDerivatives] for [account]: its index
    is one of the ten probed, its account is the one derived for that
    index, and the chain reports a positive free balance or nonce for
    it. *)
Definition lineOf (api : Api) (accountInfo : list byte -> Res (Z * Z)) (account : string)
    (l : DerivativeLine) : Prop :=
  exists d, deriveAccountCorrect api account (line_index l) = Ok d
            /\ accountInfo d = Ok (line_free l, line_nonce l)
            /\ line_account l = accountToString api d
            /\ (0 < line_free l \/ 0 < line_nonce l)%Z.

(** * Properties *)

(** ** The hash *)

Example blake2b_256_abc :
  u8aToHex (blake2AsU8a (list_byte_of_string "abc") 256)
  = "bddd813c634239723171ef3fee98579b94964e3bb1cb3e427262c8c068d52319"%string.
Proof. vm_compute. reflexivity. Qed.

Example blake2b_256_empty :
  u8aToHex (blake2AsU8a [] 256)
  = "0e5751c026e543b2e8ab2eb06099daa1d1e5df47778f7787faab45cdf12fe3a8"%string.
Proof. vm_compute. reflexivity. Qed.

Example blake2b_512_abc :
  u8aToHex (blake2AsU8a (list_byte_of_string "abc") 512)
  = ("ba80a53f981c4d0d6a2797b69f12f6e94c212f14685ac4b74b12bb6fdbffa2d1"
     ++ "7d87c5392aab792dc252d5de4533cc9518d38aa8dbf1925ab92386edd4009923")%string.
Proof. vm_compute. reflexivity. Qed.

(** A message of more than one block: the bytes 0, 1, .., 128. *)
Example blake2b_256_two_blocks :
  u8aToHex (blake2AsU8a (map (fun i => Blake2b.byte_of_Z (Z.of_nat i)) (seq 0 129)) 256)
  = "f7f3c46ba2564ff4c4c162da1f5b605f9f1c4aa6a20652a9f9a337c1a2f5b9c9"%string.
Proof. vm_compute. reflexivity. Qed.

Lemma F_length h m t final : length (Blake2b.F h m t final) = 8%nat.
Proof. unfold Blake2b.F. now rewrite length_map, length_seq. Qed.

Lemma absorb_length fuel : forall h msg t, length (Blake2b.absorb fuel h msg t) = 8%nat.
Proof.
  induction fuel as [|fuel IH]; intros h msg t; cbn [Blake2b.absorb].
  - apply F_length.
  - destruct (length msg <=? 128)%nat; [apply F_length | apply IH].
Qed.

Lemma le_bytes_length x : length (Blake2b.le_bytes x) = 8%nat.
Proof. unfold Blake2b.le_bytes. now rewrite length_map, length_seq. Qed.

Lemma flat_le_bytes_length (h : list Z) :
  length (flat_map Blake2b.le_bytes h) = (8 * length h)%nat.
Proof.
  induction h as [|x h IH]; [reflexivity|].
  cbn [flat_map]. rewrite length_app, le_bytes_length, IH. simpl length. lia.
Qed.

(** A 256-bit digest has 32 bytes. *)
Lemma blake2AsU8a_256_length raw : length (blake2AsU8a raw 256) = 32%nat.
Proof.
  unfold blake2AsU8a, Blake2b.blake2b.
  change (256 / 8)%nat with 32%nat.
  rewrite length_firstn, flat_le_bytes_length, absorb_length. reflexivity.
Qed.

(** ** The index byte *)

(** [index & 0xff] is [index mod 256]: ToInt32 keeps the low 8 bits. *)
Lemma land_toInt32 (i : Z) : Z.land (toInt32 i) 0xff = (i mod 256)%Z.
Proof.
  change 0xff%Z with (Z.ones 8). rewrite Z.land_ones by lia.
  unfold toInt32. change (2 ^ 8)%Z with 256%Z.
  pose proof (Z.div_mod (i + 2 ^ 31) (2 ^ 32) ltac:(lia)) as E.
  replace ((i + 2 ^ 31) mod 2 ^ 32 - 2 ^ 31)%Z
    with (i + (- (2 ^ 24 * ((i + 2 ^ 31) / 2 ^ 32))) * 256)%Z by lia.
  apply Z_mod_plus_full.
Qed.

Lemma indexByte_land (i : Z) :
  Blake2b.byte_of_Z (Z.land (toInt32 i) 0xff) = Blake2b.byte_of_Z (Z.land i 0xff).
Proof.
  rewrite land_toInt32. change 0xff%Z with (Z.ones 8).
  rewrite Z.land_ones by lia. reflexivity.
Qed.

Lemma deriveAccountCorrect_unfold api signer i :
  deriveAccountCorrect api signer i
  = rbind (accountFromString api signer) (fun P =>
      accountFromU8a api (blake2AsU8a (derivationBuffer P i) 256)).
Proof.
  unfold deriveAccountCorrect, derivationBuffer, DERIVATION_PREFIX.
  now rewrite indexByte_land.
Qed.

(** The loop of [checkAccountDerivatives] repeats [deriveAccountCorrect]. *)
Lemma checkAccountDerivatives_derived_eq api account i :
  checkAccountDerivatives_derived api account i = deriveAccountCorrect api account i.
Proof. reflexivity. Qed.

(** C1: for a parent account the registry reads as the 32 bytes [P], the
    deriver returns the blake2-256 digest, 32 bytes long, of the prefix
    'modlpy/utilisuba' followed by [P] and the single byte [i & 0xff],
    taken as an AccountId; the loop of [checkAccountDerivatives] computes
    the same. *)
Theorem deriveAccountCorrect_digest (api : Api) (signer : string) (P : list byte) (i : Z) :
  accountFromString api signer = Ok P ->
  length P = 32%nat ->
  (forall h, length h = 32%nat -> accountFromU8a api h = Ok h) ->
  let digest := blake2AsU8a (derivationBuffer P i) 256 in
  deriveAccountCorrect api signer i = Ok digest
  /\ checkAccountDerivatives_derived api signer i = Ok digest
  /\ length digest = 32%nat.
Proof.
  intros HP _ Hreg digest.
  assert (Hd : deriveAccountCorrect api signer i = Ok digest).
  { rewrite deriveAccountCorrect_unfold, HP. cbn [rbind].
    apply Hreg, blake2AsU8a_256_length. }
  repeat split.
  - exact Hd.
  - now rewrite checkAccountDerivatives_derived_eq.
  - apply blake2AsU8a_256_length.
Qed.

Lemma deriveAccountCorrect_digest_witness :
  deriveAccountCorrect strictApi alice 261
  = Ok (blake2AsU8a (derivationBuffer (list_byte_of_string alice) 261) 256).
Proof.
  apply (deriveAccountCorrect_digest strictApi alice (list_byte_of_string alice) 261).
  - reflexivity.
  - reflexivity.
  - intros h Hh. cbn. rewrite Hh. reflexivity.
Defined.

Example derive_alice_5 :
  rbind (deriveAccountCorrect strictApi alice 5) (fun d => Ok (accountToString strictApi d))
  = Ok "0x4e25bee9f3827a43c13fa69c3d97f9bd3c762caf39fbcc2ecf7f41839675b106"%string.
Proof. vm_compute. reflexivity. Qed.

(** C3: indices that agree modulo 256 derive the same account from the
    same parent; only the low 8 bits of the index are used. *)
Theorem derive_index_mod_256 (api : Api) (P : string) (i j : Z) :
  (i mod 256 = j mod 256)%Z ->
  deriveAccountCorrect api P i = deriveAccountCorrect api P j.
Proof.
  intros H. unfold deriveAccountCorrect.
  now rewrite !land_toInt32, H.
Qed.

Lemma derive_index_mod_256_witness :
  deriveAccountCorrect strictApi alice 5 = deriveAccountCorrect strictApi alice 261.
Proof. apply (derive_index_mod_256 strictApi alice 5 261). reflexivity. Defined.

(** Against C6 as stated: the deriver has no length check of its own;
    with a registry whose codec clips, a 33-byte parent is accepted and derives the account of
    its first 32 bytes. *)
Lemma derive_accepts_33_byte_parent :
  length (list_byte_of_string (alice ++ "!")) = 33%nat
  /\ deriveAccountCorrect clippingApi (alice ++ "!") 5
     = Ok (blake2AsU8a (derivationBuffer (list_byte_of_string alice) 5) 256).
Proof. split; vm_compute; reflexivity. Qed.

(** C6 (amended): the deriver fails exactly when the registry rejects the
    parent or the digest, with the registry's error, and otherwise returns
    what the registry makes of the digest of the bytes it read. *)
Theorem deriveAccountCorrect_outcome (api : Api) (signer : string) (i : Z) :
  (forall e, deriveAccountCorrect api signer i = Throw e <->
     accountFromString api signer = Throw e
     \/ exists P, accountFromString api signer = Ok P
                  /\ accountFromU8a api (blake2AsU8a (derivationBuffer P i) 256) = Throw e)
  /\ (forall d, deriveAccountCorrect api signer i = Ok d <->
        exists P, accountFromString api signer = Ok P
                  /\ accountFromU8a api (blake2AsU8a (derivationBuffer P i) 256) = Ok d).
Proof.
  rewrite deriveAccountCorrect_unfold.
  destruct (accountFromString api signer) as [P|e0]; cbn [rbind]; split; intros x; split.
  - intros H. right. now exists P.
  - intros [H|(P' & HP & H)]; [discriminate|]. congruence.
  - intros H. now exists P.
  - intros (P' & HP & H). congruence.
  - intros H. now left.
  - intros [H|(P' & HP & _)]; [exact H|discriminate].
  - discriminate.
  - intros (P' & HP & _). discriminate.
Qed.

(** ** Reasoning about the scan monad *)

Lemma vsize_list (xs : list Val) (x : Val) : In x xs -> vsize x < vsize (VArr xs).
Proof.
  induction xs as [|y ys IH]; [intros []|].
  intros [->|Hin].
  - cbn. lia.
  - specialize (IH Hin). cbn in IH |- *. lia.
Qed.

Lemma vsize_args (callArgs s m a : Val) :
  In (VObj s m a) (callsOf callArgs) -> vsize a < vsize callArgs.
Proof.
  assert (Hseq : forall cv, In (VObj s m a)
                              match toCallsArr cv with Ok xs => xs | Throw _ => [] end ->
                            vsize a < vsize cv).
  { intros cv Hin.
    assert (forall xs, In (VObj s m a) xs -> vsize a < vsize (VArr xs)) as Hxs.
    { intros xs H. apply vsize_list in H. cbn in H |- *. lia. }
    destruct cv; cbn in Hin; try contradiction; apply Hxs in Hin; exact Hin. }
  unfold callsOf.
  destruct callArgs as [| |str|n|xs|xs|s' m' a']; cbn; try contradiction.
  - destruct (String.get 0 str); cbn; contradiction.
  - destruct xs as [|cv rest]; cbn; [contradiction|].
    intros Hin. apply Hseq in Hin. lia.
  - destruct xs as [|cv rest]; cbn; [contradiction|].
    intros Hin. apply Hseq in Hin. lia.
Qed.

(** The definitions by cases on the shape of the arguments, read through
    [index], [toCallsArr] and [prop] as the source is written. *)
Lemma forEachCall_eq (callArgs : Val) (f : Val -> M unit) :
  forEachCall callArgs f
  = (callsVec <- lift (index callArgs 0) ;;
     callsArr <- lift (toCallsArr callsVec) ;;
     forEach f callsArr)%js.
Proof.
  destruct callArgs as [| |str|n|xs|xs|s' m' a']; try reflexivity.
  - cbn. destruct (String.get 0 str); reflexivity.
  - destruct xs as [|cv rest]; [reflexivity|]. destruct cv; reflexivity.
  - destruct xs as [|cv rest]; [reflexivity|]. destruct cv; reflexivity.
Qed.

Lemma onNested_eq (nested : Val) (k : Val -> Val -> M unit) :
  onNested nested k
  = if truthy nested
    then (m <- lift (prop nested Kmethod) ;;
          if truthy m
          then (a <- lift (prop nested Kargs) ;; k m a)
          else ret tt)%js
    else ret tt.
Proof.
  destruct nested as [| |str|n|xs|xs|s m a]; try reflexivity.
  cbn. destruct (negb _); reflexivity.
Qed.

Lemma checkAsDerivative_eq objToString toHuman callMethod callArgs api
    blockNumber extrinsicIndex signer writeDetail depth :
  checkAsDerivative objToString toHuman callMethod callArgs api blockNumber
                    extrinsicIndex signer writeDetail depth
  = (tally <- (if Nat.eqb depth 0
               then sec <- lift (prop callMethod Ksection) ;; ret (is_str sec "utility")
               else ret false) ;;
     (if (tally : bool)
      then m <- lift (prop callMethod Kmethod) ;;
           methodName <- lift (toString objToString m) ;;
           bumpUtilityMethod methodName
      else ret tt) ;;;
     isAsDerivative <- lift (utilityCall callMethod (fun m => is_str m "asDerivative")) ;;
     if (isAsDerivative : bool)
     then matchAsDerivative objToString toHuman callArgs api blockNumber extrinsicIndex signer writeDetail
     else
       isBatch <- lift (utilityCall callMethod
                          (fun m => is_str m "batch" || is_str m "batchAll")) ;;
       if (isBatch : bool)
       then forEachCall callArgs (fun nested =>
              onNested nested (fun m a =>
                checkAsDerivative objToString toHuman m a api blockNumber
                                  extrinsicIndex signer writeDetail (S depth)))
       else ret tt)%js.
Proof. destruct callArgs; reflexivity. Qed.

Section Ensures.

Variables R E : World -> World -> Prop.
Hypothesis R_refl : forall w, R w w.
Hypothesis E_refl : forall w, E w w.
Hypothesis R_trans : forall w1 w2 w3, R w1 w2 -> R w2 w3 -> R w1 w3.
Hypothesis RE_trans : forall w1 w2 w3, R w1 w2 -> E w2 w3 -> E w1 w3.

Lemma ensures_ret {A} (a : A) : ensures R E (ret a).
Proof. intros w. apply R_refl. Qed.

Lemma ensures_lift {A} (r : Res A) : ensures R E (lift r).
Proof. intros w. unfold lift. destruct r; auto. Qed.

Lemma ensures_bind {A B} (m : M A) (k : A -> M B) :
  ensures R E m -> (forall a, ensures R E (k a)) -> ensures R E (bind m k).
Proof.
  intros Hm Hk w. unfold bind. specialize (Hm w).
  destruct (m w) as [[a|e] w1]; [|exact Hm].
  specialize (Hk a w1). destruct (k a w1) as [[b|e] w2]; eauto.
Qed.

Lemma ensures_bind_lift {A B} (r : Res A) (k : A -> M B) :
  (forall a, r = Ok a -> ensures R E (k a)) -> ensures R E (bind (lift r) k).
Proof.
  intros Hk w. unfold bind, lift. destruct r as [a|e]; [|apply E_refl].
  exact (Hk a eq_refl w).
Qed.

Lemma ensures_forEach {A} (f : A -> M unit) (xs : list A) :
  (forall x, In x xs -> ensures R E (f x)) -> ensures R E (forEach f xs).
Proof.
  induction xs as [|x xs IH]; intros Hf w; cbn.
  - apply R_refl.
  - pose proof (Hf x (or_introl eq_refl) w) as Hx.
    destruct (f x w) as [[[]|e] w1]; [|exact Hx].
    assert (Hrest : ensures R E (forEach f xs)).
    { apply IH. intros y Hy. apply Hf. now right. }
    specialize (Hrest w1). destruct (forEach f xs w1) as [[u|e] w2]; eauto.
Qed.

Lemma ensures_forEachIdx {A} (f : A -> nat -> M unit) (xs : list A) :
  (forall x i, In x xs -> ensures R E (f x i)) ->
  forall i, ensures R E (forEachIdx f i xs).
Proof.
  induction xs as [|x xs IH]; intros Hf i w; cbn.
  - apply R_refl.
  - pose proof (Hf x i (or_introl eq_refl) w) as Hx.
    destruct (f x i w) as [[[]|e] w1]; [|exact Hx].
    assert (Hrest : ensures R E (forEachIdx f (S i) xs)).
    { apply IH. intros y j Hy. apply Hf. now right. }
    specialize (Hrest w1). destruct (forEachIdx f (S i) xs w1) as [[u|e] w2]; eauto.
Qed.

(** The walk satisfies whatever its two effects satisfy: the debug tally,
    made at depth 0 only, and the [asDerivative] branch.  The condition
    [C], inherited by nested calls, says where these must be considered. *)
Lemma ensures_checkAsDerivative objToString toHuman api blockNumber extrinsicIndex
    signer writeDetail (C : Val -> Val -> nat -> Prop) :
  (forall callMethod callArgs name,
      C callMethod callArgs 0 -> ensures R E (bumpUtilityMethod name)) ->
  (forall callMethod callArgs depth,
      C callMethod callArgs depth ->
      utilityCall callMethod (fun m => is_str m "asDerivative") = Ok true ->
      ensures R E (matchAsDerivative objToString toHuman callArgs api blockNumber
                                     extrinsicIndex signer writeDetail)) ->
  (forall callMethod callArgs depth s m a,
      C callMethod callArgs depth -> In (VObj s m a) (callsOf callArgs) ->
      C m a (S depth)) ->
  forall callMethod callArgs depth,
    C callMethod callArgs depth ->
    ensures R E (checkAsDerivative objToString toHuman callMethod callArgs api
                                   blockNumber extrinsicIndex signer writeDetail depth).
Proof.
  intros Hbump Hmatch Hnest callMethod callArgs.
  remember (S (vsize callArgs)) as n eqn:Hn.
  assert (Hlt : vsize callArgs < n) by lia. clear Hn.
  revert callMethod callArgs Hlt.
  induction n as [|n IH]; intros callMethod callArgs Hlt depth HC; [lia|].
  rewrite checkAsDerivative_eq.
  set (rest := bind (lift (utilityCall callMethod (fun m => is_str m "asDerivative"))) _).
  assert (Hrest : ensures R E rest).
  { subst rest. apply ensures_bind_lift. intros isAs HisAs.
    destruct isAs; [now apply (Hmatch callMethod callArgs depth)|].
    apply ensures_bind_lift. intros isBatch _.
    destruct isBatch; [|apply ensures_ret].
    rewrite forEachCall_eq.
    apply ensures_bind_lift. intros callsVec Hvec.
    apply ensures_bind_lift. intros callsArr Harr.
    assert (Hcalls : callsOf callArgs = callsArr).
    { unfold callsOf. now rewrite Hvec, Harr. }
    apply ensures_forEach. intros nested Hin.
    destruct nested as [| |str|k|xs|xs|s m a]; try apply ensures_ret.
    cbn [onNested]. destruct (truthy m); [|apply ensures_ret].
    rewrite <- Hcalls in Hin.
    apply IH.
    - apply vsize_args in Hin. lia.
    - now apply (Hnest callMethod callArgs depth s). }
  clearbody rest.
  destruct (Nat.eqb depth 0) eqn:Hdepth.
  - apply Nat.eqb_eq in Hdepth. subst depth.
    apply ensures_bind.
    { apply ensures_bind_lift. intros sec _. apply ensures_ret. }
    intros tally. apply ensures_bind; [|intros _; exact Hrest].
    destruct tally; [|apply ensures_ret].
    apply ensures_bind_lift. intros m _.
    apply ensures_bind_lift. intros name _. now apply (Hbump callMethod callArgs).
  - intros w. exact (Hrest w).
Qed.


End Ensures.

(** ** The walk invariant *)

Lemma size_add_le (x : string) (X : gset string) : size ({[x]} ∪ X) <= S (size X).
Proof.
  destruct (decide (x ∈ X)) as [Hin|Hnin].
  - rewrite (subseteq_union_1_L {[x]} X) by now apply singleton_subseteq_l.
    lia.
  - rewrite size_union by now apply disjoint_singleton_l.
    rewrite size_singleton. lia.
Qed.

Lemma Emitted_refl G w : Emitted G 0 w w.
Proof.
  exists []. rewrite app_nil_r. repeat split; auto; cbn; lia.
Qed.

Lemma Emitted_silent G w w' :
  sink w' = sink w -> counters w' = counters w -> Emitted G 0 w w'.
Proof.
  intros Hs Hc. exists []. rewrite Hs, Hc, app_nil_r. repeat split; auto; cbn; lia.
Qed.

Lemma Emitted_trans G x y w1 w2 w3 :
  Emitted G x w1 w2 -> Emitted G y w2 w3 -> Emitted G (x + y) w1 w3.
Proof.
  intros (e1 & Hs1 & HG1 & Ht1 & Hu1 & Hz1) (e2 & Hs2 & HG2 & Ht2 & Hu2 & Hz2).
  exists (e1 ++ e2). rewrite length_app, Nat2Z.inj_add.
  repeat split.
  - now rewrite Hs2, Hs1, app_assoc.
  - now apply Forall_app.
  - lia.
  - now transitivity (unique (counters w2)).
  - lia.
Qed.

Lemma Emitted_weaken (G G' : MatchRecord -> Prop) x w w' :
  (forall r, G r -> G' r) -> Emitted G x w w' -> Emitted G' x w w'.
Proof.
  intros HG (e & Hs & HGe & Ht & Hu & Hz). exists e. repeat split; auto.
  eapply Forall_impl; eauto.
Qed.

Lemma Counted_refl G w : Counted G w w.
Proof. exists 0%Z. split; [lia|apply Emitted_refl]. Qed.

Lemma Counted_trans G w1 w2 w3 : Counted G w1 w2 -> Counted G w2 w3 -> Counted G w1 w3.
Proof.
  intros (x & Hx & H1) (y & Hy & H2). exists (x + y)%Z. split; [lia|].
  exact (Emitted_trans G x y _ _ _ H1 H2).
Qed.

Lemma Counted_weaken (G G' : MatchRecord -> Prop) w w' :
  (forall r, G r -> G' r) -> Counted G w w' -> Counted G' w w'.
Proof.
  intros HG (x & Hx & H). exists x. split; [exact Hx|]. revert H. now apply Emitted_weaken.
Qed.

Lemma recordOf_recordAt api b idx s r : recordOf api b idx s r -> recordAt api b idx r.
Proof. intros (Hb & Hi & _ & Hr). split; [now rewrite Hb, Hi|exact Hr]. Qed.

Lemma recordAt_recordIn api b idx r : recordAt api b idx r -> recordIn api b r.
Proof. intros [Hk Hr]. split; [congruence|exact Hr]. Qed.

Lemma Emitted_Counted G w w' : Emitted G 0 w w' -> Counted G w w'.
Proof. intros H. exists 0%Z. split; [lia|exact H]. Qed.

Lemma Interrupted_Counted G w w' : Interrupted G w w' -> Counted G w w'.
Proof. intros (x & Hx & H). exists x. split; [lia|exact H]. Qed.

Section Walk.

Variable objToString : Val -> string.
Variable toHuman : Val -> Val.
Variable api : Api.
Variable blockNumber : Z.
Variable extrinsicIndex : nat.
Variable signer : string.

Local Abbreviation G := (recordOf api blockNumber extrinsicIndex signer).

Lemma walk_R_refl w : Emitted G 0 w w.
Proof. apply Emitted_refl. Qed.

Lemma walk_E_refl w : Interrupted G w w.
Proof. exists 0%Z. split; [lia|apply Emitted_refl]. Qed.

Lemma walk_R_trans w1 w2 w3 : Emitted G 0 w1 w2 -> Emitted G 0 w2 w3 -> Emitted G 0 w1 w3.
Proof. intros H1 H2. exact (Emitted_trans G 0 0 _ _ _ H1 H2). Qed.

Lemma walk_RE_trans w1 w2 w3 : Emitted G 0 w1 w2 -> Interrupted G w2 w3 -> Interrupted G w1 w3.
Proof.
  intros H1 (x & Hx & H2). exists x. split; [exact Hx|].
  exact (Emitted_trans G 0 x _ _ _ H1 H2).
Qed.

Lemma bumpUtilityMethod_walk name :
  ensures (Emitted G 0) (Interrupted G) (bumpUtilityMethod name).
Proof.
  intros w. cbn. exists []. cbn. rewrite app_nil_r. repeat split; auto; lia.
Qed.

(** The [asDerivative] branch counts the match, then builds and writes
    the record; an exception in between leaves the match counted. *)
Lemma matchAsDerivative_walk callArgs :
  ensures (Emitted G 0) (Interrupted G)
          (matchAsDerivative objToString toHuman callArgs api blockNumber
                             extrinsicIndex signer writeDetail_main).
Proof.
  unfold matchAsDerivative.
  apply ensures_bind_lift; [apply walk_E_refl|]. intros a0 _.
  apply ensures_bind_lift; [apply walk_E_refl|]. intros n _.
  apply ensures_bind_lift; [apply walk_E_refl|]. intros innerCall _.
  apply ensures_bind_lift; [apply walk_E_refl|]. intros d Hd.
  intros w. unfold bind, countMatch, modify, lift, writeDetail_main.
  destruct (innerCallDetail objToString toHuman innerCall) as [detail|e]; cbn.
  - eexists [_]. cbn. repeat split; auto.
    + constructor; [|constructor]. repeat split; cbn; auto. now exists d.
    + lia.
    + apply union_subseteq_r.
    + pose proof (size_add_le (accountToString api d) (unique (counters w))). lia.
  - exists 1%Z. split; [lia|]. exists []. cbn. rewrite app_nil_r. repeat split; auto.
    + lia.
    + apply union_subseteq_r.
    + pose proof (size_add_le (accountToString api d) (unique (counters w))). lia.
Qed.

(** Every walk appends records of its own block, extrinsic and signer with
    a reproducible derived account, and counts each of them once. *)
Lemma checkAsDerivative_walk callMethod callArgs depth :
  ensures (Emitted G 0) (Interrupted G)
          (checkAsDerivative objToString toHuman callMethod callArgs api blockNumber
                             extrinsicIndex signer writeDetail_main depth).
Proof.
  apply (ensures_checkAsDerivative _ _ walk_R_refl walk_E_refl walk_R_trans walk_RE_trans
           objToString toHuman api blockNumber extrinsicIndex signer writeDetail_main
           (fun _ _ _ => True)); auto.
  - intros. apply bumpUtilityMethod_walk.
  - intros. apply matchAsDerivative_walk.
Qed.

End Walk.

(** ** The [asDerivative] branch *)

Lemma is_str_true v lit : is_str v lit = true -> v = VStr lit.
Proof.
  destruct v; cbn; try discriminate.
  intros H. apply String.eqb_eq in H. now subst.
Qed.

Lemma utilityCall_true callMethod p :
  utilityCall callMethod p = Ok true ->
  exists m a, callMethod = VObj (VStr "utility") m a /\ p m = true.
Proof.
  destruct callMethod as [| |str|n|xs|xs|s m a]; cbn; try discriminate.
  destruct (is_str s "utility") eqn:Hs; cbn; [|discriminate].
  apply is_str_true in Hs. subst s. intros H. exists m, a. split; congruence.
Qed.



(** ** Counters and records *)

(** Against C9 as stated: a match is counted before its record is built;
    when the inner call cannot be read the walk raises with the match counted and nothing
    written. *)
Lemma total_counts_match_never_written :
  let res := checkAsDerivative plainToString plainToHuman asDerivativeBare
               asDerivativeBare_args strictApi 101 3 alice writeDetail_main 0 initialWorld in
  fst res = Throw (TypeError "Cannot read properties of undefined")
  /\ total (counters (snd res)) = 1%Z
  /\ sink (snd res) = [].
Proof. vm_compute. repeat split. Qed.

(** C9 (amended): from a state in which [counters.total] is the number of
    records written and the unique set is no larger, a walk ends with the
    unique set no larger than [total] and [total] at most one above the
    number of records; when the walk returns, [total] is again the number
    of records, and the counters are unchanged if no record was written. *)
Theorem counters_track_records objToString toHuman api blockNumber extrinsicIndex signer
    callMethod callArgs depth w :
  total (counters w) = Z.of_nat (length (sink w)) ->
  (Z.of_nat (size (unique (counters w))) <= total (counters w))%Z ->
  let res := checkAsDerivative objToString toHuman callMethod callArgs api blockNumber
               extrinsicIndex signer writeDetail_main depth w in
  let w' := snd res in
  (Z.of_nat (size (unique (counters w'))) <= total (counters w'))%Z
  /\ (Z.of_nat (length (sink w')) <= total (counters w')
      <= Z.of_nat (length (sink w')) + 1)%Z
  /\ (fst res = Ok tt ->
      total (counters w') = Z.of_nat (length (sink w'))
      /\ (sink w' = sink w -> counters w' = counters w)).
Proof.
  intros Ht Hu res w'.
  pose proof (checkAsDerivative_walk objToString toHuman api blockNumber extrinsicIndex
                signer callMethod callArgs depth w) as Hw.
  fold res in Hw. subst w'. destruct res as [[[]|e] w']; cbn [fst snd].
  - destruct Hw as (em & Hs & _ & Ht' & Hsub & Hz).
    rewrite Hs, length_app, Nat2Z.inj_add.
    repeat split; try lia.
    intros Hsame.
    assert (em = []) as ->.
    { apply (f_equal (@length _)) in Hsame. rewrite length_app in Hsame.
      destruct em; [reflexivity|cbn in Hsame; lia]. }
    cbn in Ht', Hz.
    assert (unique (counters w) = unique (counters w')) as Heq.
    { apply set_subseteq_size_eq; [exact Hsub|lia]. }
    destruct (counters w) as [t u], (counters w') as [t' u']; cbn in *.
    f_equal; [lia|congruence].
  - destruct Hw as (x & Hx & em & Hs & _ & Ht' & Hsub & Hz).
    rewrite Hs, length_app, Nat2Z.inj_add.
    repeat split; try lia; discriminate.
Qed.

Lemma counters_track_records_witness :
  let res := checkAsDerivative plainToString plainToHuman asDerivative5 asDerivative5_args
               strictApi 101 3 alice writeDetail_main 0 initialWorld in
  (Z.of_nat (size (unique (counters (snd res)))) <= total (counters (snd res)))%Z.
Proof.
  assert (Ht : total (counters initialWorld) = Z.of_nat (length (sink initialWorld)))
    by reflexivity.
  assert (Hu : (Z.of_nat (size (unique (counters initialWorld)))
                <= total (counters initialWorld))%Z)
    by (vm_compute; discriminate).
  destruct (counters_track_records plainToString plainToHuman strictApi 101 3 alice
              asDerivative5 asDerivative5_args 0 initialWorld Ht Hu) as (H & _).
  exact H.
Defined.

(** ** Trees without [asDerivative] *)

Lemma mentions_elem (xs : list Val) (x : Val) :
  In x xs -> mentionsAsDerivative (VArr xs) = false -> mentionsAsDerivative x = false.
Proof.
  induction xs as [|y ys IH]; [intros []|].
  cbn. intros [->|Hin] H; apply orb_false_elim in H as [Hy Hys]; auto.
Qed.

Lemma mentions_callsOf (callArgs x : Val) :
  In x (callsOf callArgs) -> mentionsAsDerivative callArgs = false ->
  mentionsAsDerivative x = false.
Proof.
  assert (Hseq : forall cv, In x match toCallsArr cv with Ok xs => xs | Throw _ => [] end ->
                            mentionsAsDerivative cv = false ->
                            mentionsAsDerivative x = false).
  { intros cv Hin Hcv. destruct cv; cbn in Hin; try contradiction;
      exact (mentions_elem _ _ Hin Hcv). }
  unfold callsOf.
  destruct callArgs as [| |str|n|xs|xs|s' m' a']; cbn [index]; try contradiction.
  - destruct (String.get 0 str); cbn; contradiction.
  - destruct xs as [|cv rest]; cbn [nth]; [cbn; contradiction|].
    intros Hin H. apply (Hseq cv Hin).
    apply (mentions_elem (cv :: rest) cv); [now left|exact H].
  - destruct xs as [|cv rest]; cbn [nth]; [cbn; contradiction|].
    intros Hin H. apply (Hseq cv Hin).
    apply (mentions_elem (cv :: rest) cv); [now left|exact H].
Qed.

Lemma mentions_match callMethod :
  utilityCall callMethod (fun m => is_str m "asDerivative") = Ok true ->
  mentionsAsDerivative callMethod = true.
Proof.
  intros H. apply utilityCall_true in H as (m & a & -> & Hm). cbn. now rewrite Hm.
Qed.

Lemma OnlyTally_refl w : OnlyTally w w.
Proof. repeat split. Qed.

Lemma OnlyTally_trans w1 w2 w3 : OnlyTally w1 w2 -> OnlyTally w2 w3 -> OnlyTally w1 w3.
Proof.
  intros ((?&?)&?&?) ((?&?)&?&?). repeat split; congruence.
Qed.

Section Quiet.

Variable objToString : Val -> string.
Variable toHuman : Val -> Val.
Variable api : Api.
Variable blockNumber : Z.
Variable extrinsicIndex : nat.
Variable signer : string.
Variable writeDetail : MatchRecord -> M unit.

Lemma clean_nested callMethod callArgs s m a :
  clean callMethod callArgs -> In (VObj s m a) (callsOf callArgs) -> clean m a.
Proof.
  intros [_ Hargs] Hin. pose proof (mentions_callsOf _ _ Hin Hargs) as H.
  cbn in H. repeat (apply orb_false_elim in H as [H ?]). now split.
Qed.

(** Without [asDerivative] in the tree, a walk changes at most the debug
    tally. *)
Lemma checkAsDerivative_clean callMethod callArgs depth :
  clean callMethod callArgs ->
  ensures OnlyTally OnlyTally
          (checkAsDerivative objToString toHuman callMethod callArgs api blockNumber
                             extrinsicIndex signer writeDetail depth).
Proof.
  intros Hclean.
  apply (ensures_checkAsDerivative _ _ OnlyTally_refl OnlyTally_refl OnlyTally_trans
           OnlyTally_trans objToString toHuman api blockNumber extrinsicIndex signer
           writeDetail (fun cm ca _ => clean cm ca)); auto.
  - intros cm ca name _ w. cbn. repeat split.
  - intros cm ca _ [Hcm _] Hm. apply mentions_match in Hm. congruence.
  - intros cm ca _ s m a. apply clean_nested.
Qed.

(** Below depth 0 such a walk changes nothing at all. *)
Lemma checkAsDerivative_clean_nested callMethod callArgs depth :
  depth <> 0 ->
  clean callMethod callArgs ->
  ensures (fun w w' => w' = w) (fun w w' => w' = w)
          (checkAsDerivative objToString toHuman callMethod callArgs api blockNumber
                             extrinsicIndex signer writeDetail depth).
Proof.
  intros Hdepth Hclean.
  apply (ensures_checkAsDerivative (fun w w' => w' = w) (fun w w' => w' = w))
    with (C := fun cm ca d => d <> 0 /\ clean cm ca); auto.
  - intros; congruence.
  - intros; congruence.
  - intros cm ca name [H _]. contradiction.
  - intros cm ca _ [_ [Hcm _]] Hm. apply mentions_match in Hm. congruence.
  - intros cm ca d s m a [_ Hc] Hin. split; [lia|]. now apply (clean_nested cm ca s).
Qed.

(** A call outside the utility section is left at once. *)
Lemma checkAsDerivative_other_section callMethod callArgs depth sec w :
  prop callMethod Ksection = Ok sec ->
  is_str sec "utility" = false ->
  checkAsDerivative objToString toHuman callMethod callArgs api blockNumber
                    extrinsicIndex signer writeDetail depth w = (Ok tt, w).
Proof.
  intros Hsec Hother. rewrite checkAsDerivative_eq.
  unfold utilityCall, bind, lift, ret. rewrite Hsec. cbn. rewrite Hother.
  destruct (Nat.eqb depth 0); reflexivity.
Qed.

End Quiet.




(** ** Nested calls *)

(** With every batch element an [item], an [asDerivative] two batches
    down is found and reported under the block, extrinsic and signer of
    the enclosing extrinsic. *)
Lemma nested_items_are_found objToString toHuman api blockNumber extrinsicIndex signer
    n inner detail d w :
  toNumber (VInt n) = Ok n ->
  innerCallDetail objToString toHuman inner = Ok detail ->
  deriveAccountCorrect api signer n = Ok d ->
  let asD := VObj (VStr "utility") (VStr "asDerivative") (VArr [VInt n; inner]) in
  let args := VArr [VVec [item (call "utility" "batchAll" [VVec [item asD]])]] in
  exists w',
    checkAsDerivative objToString toHuman (VObj (VStr "utility") (VStr "batch") args) args
                      api blockNumber extrinsicIndex signer writeDetail_main 0 w
    = (Ok tt, w')
    /\ sink w' = sink w ++ [ {| block := blockNumber;
                                extrinsicIndex := extrinsicIndex;
                                signer := signer;
                                derivativeIndex := n;
                                derivedAccount := accountToString api d;
                                innerCall := fst detail;
                                innerCallArgs := snd detail |} ].
Proof.
  intros Hn Hdet Hd asD args. subst asD args.
  cbn -[toNumber innerCallDetail deriveAccountCorrect].
  unfold matchAsDerivative, bind, lift.
  cbn -[toNumber innerCallDetail deriveAccountCorrect].
  rewrite Hn, Hd. cbn -[innerCallDetail]. rewrite Hdet. cbn.
  eexists. split; reflexivity.
Qed.

Example nestedItems_found :
  map (fun r => (block r, extrinsicIndex r, signer r, derivativeIndex r))
      (sink (snd (scanExtrinsic plainToString plainToHuman strictApi 101
                    (signedBy alice nestedItems) 3 initialWorld)))
  = [(101%Z, 3, alice, 5%Z)].
Proof. vm_compute. reflexivity. Qed.

Example nestedCalls_missed :
  sink (snd (scanExtrinsic plainToString plainToHuman strictApi 101
               (signedBy alice nestedCalls) 3 initialWorld)) = [].
Proof. vm_compute. reflexivity. Qed.

(** C4, at call objects: a batch whose elements are call objects, read as
    [main] reads [ex.method], is walked without any match, because
    [nested.method] is then the method name and has no [section]. *)
Theorem nested_call_objects_are_missed objToString toHuman api blockNumber extrinsicIndex w :
  let res := scanExtrinsic objToString toHuman api blockNumber
               (signedBy alice nestedCalls) extrinsicIndex w in
  fst res = Ok tt
  /\ sink (snd res) = sink w
  /\ counters (snd res) = counters w.
Proof. cbn. repeat split. Qed.

(** More generally: below the top level a call is only inspected through
    [nested.method]; when that is a string, as the method name of a call
    object is, the nested call is passed over, whatever it is. *)
Lemma string_method_is_passed_over objToString toHuman api blockNumber extrinsicIndex signer
    writeDetail name callArgs depth w :
  checkAsDerivative objToString toHuman (VStr name) callArgs api blockNumber extrinsicIndex
                    signer writeDetail (S depth) w = (Ok tt, w).
Proof. now apply checkAsDerivative_other_section with (sec := VUndef). Qed.

Lemma batch_of_call_objects_finds_nothing objToString toHuman api blockNumber
    extrinsicIndex signer writeDetail (calls : list Val) w :
  Forall (fun c => exists s name a, c = VObj s (VStr name) a) calls ->
  forEach (fun nested =>
             onNested nested (fun m a =>
               checkAsDerivative objToString toHuman m a api blockNumber extrinsicIndex
                                 signer writeDetail 1))
          calls w
  = (Ok tt, w).
Proof.
  induction 1 as [|c calls (s & name & a & ->) _ IH]; [reflexivity|].
  cbn [forEach onNested]. destruct (truthy (VStr name)); [|exact IH].
  rewrite string_method_is_passed_over. exact IH.
Qed.

(** The quick scan looks at the elements of a top-level batch and not
    inside them. *)
Lemma quickScan_stops_at_depth_1 toHuman hargs t :
  toHuman (VVec [call "utility" "batchAll" [VVec [asDerivative5]]])
  = VArr [VObj (VStr "utility") (VStr "batchAll") hargs] ->
  quickScanExtrinsic toHuman nestedCalls t
  = Ok {| hasAsDerivative := hasAsDerivative t;
          utilityCount := (utilityCount t + 1)%Z;
          found := found t |}.
Proof. intros H. cbn. rewrite H. reflexivity. Qed.

(** ** Malformed batches *)

(** A batch whose first argument is a value other than undefined or null
    and no sequence is walked as an empty batch. *)
Lemma batch_first_argument_other objToString toHuman api blockNumber extrinsicIndex signer
    callsVec rest depth w :
  match callsVec with
  | VStr _ | VInt _ | VObj _ _ _ => True
  | _ => False
  end ->
  let args := VArr (callsVec :: rest) in
  let res := checkAsDerivative objToString toHuman (VObj (VStr "utility") (VStr "batch") args)
               args api blockNumber extrinsicIndex signer writeDetail_main depth w in
  fst res = Ok tt /\ sink (snd res) = sink w /\ counters (snd res) = counters w.
Proof.
  intros Hshape args res. subst args res.
  destruct callsVec; try contradiction; destruct depth; cbn; repeat split.
Qed.

(** C5, at a missing first argument: a batch decoded without arguments
    reaches the matcher with the empty array [main] substitutes, and the
    matcher raises on [callArgs[0].toArray]; so it does for a first
    argument that is undefined or null. *)
Theorem batch_without_calls_raises objToString toHuman api blockNumber extrinsicIndex signer w :
  let raises (res : Res unit * World) :=
    fst res = Throw (TypeError "Cannot read properties of undefined") in
  raises (scanExtrinsic objToString toHuman api blockNumber
            (signedBy signer batchNoArgs) extrinsicIndex w)
  /\ raises (checkAsDerivative objToString toHuman batchNoArgs (VArr []) api blockNumber
               extrinsicIndex signer writeDetail_main 0 w)
  /\ raises (checkAsDerivative objToString toHuman batchNoArgs (VArr [VUndef]) api
               blockNumber extrinsicIndex signer writeDetail_main 0 w)
  /\ raises (checkAsDerivative objToString toHuman batchNoArgs (VArr [VNull]) api
               blockNumber extrinsicIndex signer writeDetail_main 0 w).
Proof. cbn. repeat split. Qed.

(** ** Extrinsics the scan skips *)



(** ** The block loop *)

Lemma ensures_weaken {A} (R E R' E' : World -> World -> Prop) (m : M A) :
  (forall w w', R w w' -> R' w w') ->
  (forall w w', E w w' -> E' w w') ->
  ensures R E m -> ensures R' E' m.
Proof.
  intros HR HE Hm w. specialize (Hm w). destruct (m w) as [[a|e] w']; auto.
Qed.

(** A step that writes no record and leaves the scan counters alone. *)
Ltac silent_step := cbn; apply Emitted_Counted, Emitted_silent; reflexivity.

Lemma ensures_tryCatch (R E : World -> World -> Prop) (body : M unit) :
  ensures R E body ->
  ensures (fun w w' => R w w' \/ E w w') (fun _ _ => False) (tryCatch body).
Proof.
  intros Hb w. unfold tryCatch. specialize (Hb w).
  destruct (body w) as [[u|e] w']; cbn; auto.
Qed.

Section ScanFacts.

Variable objToString : Val -> string.
Variable toHuman : Val -> Val.
Variable api : Api.
Variable chain : Z -> Res (list Extrinsic).

Local Abbreviation at_ := (recordAt api).
Local Abbreviation of_ := (recordIn api).

Lemma scanExtrinsic_counted b ex idx :
  ensures (Counted (at_ b idx)) (Counted (at_ b idx))
          (scanExtrinsic objToString toHuman api b ex idx).
Proof.
  pose proof (Counted_refl (at_ b idx)) as Hrefl.
  pose proof (Counted_trans (at_ b idx)) as Htrans.
  unfold scanExtrinsic.
  apply (ensures_bind _ _ Htrans Htrans); [intros w; silent_step|].
  intros _. destruct (ex_signer ex) as [signerString|]; [|now apply ensures_ret].
  apply (ensures_bind_lift _ _ Hrefl). intros sec _.
  destruct (is_str sec "utility"); [|now apply ensures_ret].
  apply (ensures_bind _ _ Htrans Htrans); [intros w; silent_step|].
  intros _. apply (ensures_bind_lift _ _ Hrefl). intros margs _.
  eapply ensures_weaken;
    [| |apply (checkAsDerivative_walk objToString toHuman api b idx signerString)].
  - intros w w' H. apply Emitted_Counted. revert H.
    apply Emitted_weaken, recordOf_recordAt.
  - intros w w' H. apply Interrupted_Counted in H. revert H.
    apply Counted_weaken, recordOf_recordAt.
Qed.

Lemma scanBlock_counted b exs i :
  ensures (Counted (of_ b)) (Counted (of_ b))
          (forEachIdx (scanExtrinsic objToString toHuman api b) i exs).
Proof.
  apply (ensures_forEachIdx _ _ (Counted_refl _) (Counted_trans _) (Counted_trans _)).
  intros ex idx _. eapply ensures_weaken; [| |apply (scanExtrinsic_counted b ex idx)];
    intros w w'; apply Counted_weaken, recordAt_recordIn.
Qed.

Lemma chunk_100_102 (B : nat) :
  0 < B ->
  chunkArray (allBlocks 100 102) B
  = match B with
    | 1 => [[100%Z]; [101%Z]; [102%Z]]
    | 2 => [[100%Z; 101%Z]; [102%Z]]
    | _ => [[100%Z; 101%Z; 102%Z]]
    end.
Proof.
  intros HB. destruct B as [|[|[|B]]]; [lia|reflexivity|reflexivity|].
  change (allBlocks 100 102) with [100%Z; 101%Z; 102%Z].
  unfold chunkArray. cbn. now rewrite firstn_nil.
Qed.

(** Blocks 100 to 102 with a single match, in block 101. *)
Lemma scan_100_102 B E100 E101 E102 w :
  0 < B ->
  chain 100 = Ok E100 -> chain 101 = Ok E101 -> chain 102 = Ok E102 ->
  (forall w0, exists w1,
      forEachIdx (scanExtrinsic objToString toHuman api 100) 0 E100 w0 = (Ok tt, w1)
      /\ sink w1 = sink w0) ->
  (forall w0, exists w1 r,
      forEachIdx (scanExtrinsic objToString toHuman api 101) 0 E101 w0 = (Ok tt, w1)
      /\ sink w1 = sink w0 ++ [r]) ->
  (forall w0,
      sink (snd (forEachIdx (scanExtrinsic objToString toHuman api 102) 0 E102 w0))
      = sink w0) ->
  exists r,
    sink (snd (scanBlocks objToString toHuman api chain 100 102 B w)) = sink w ++ [r]
    /\ block r = 101%Z.
Proof.
  intros HB Hc0 Hc1 Hc2 H100 H101 H102.
  destruct (H100 w) as (w1 & Hrun0 & Hs0).
  destruct (H101 w1) as (w2 & r & Hrun1 & Hs1).
  pose proof (H102 w2) as Hs2.
  assert (Hr : block r = 101%Z).
  { pose proof (scanBlock_counted 101 E101 0 w1) as Hcount. rewrite Hrun1 in Hcount.
    destruct Hcount as (x & _ & em & Hem & HG & _).
    rewrite Hs1 in Hem. apply app_inv_head in Hem. subst em.
    inversion HG as [|? ? [Hb _] _]; subst. exact Hb. }
  exists r. split; [|exact Hr].
  unfold scanBlocks. rewrite (chunk_100_102 B HB).
  assert (Hend : forall res : Res unit * World,
             sink (snd res) = sink w2 -> sink (snd (let (r0, w') := res in
                                                    match r0 with
                                                    | Ok _ => (Ok tt, w')
                                                    | Throw e => (Throw e, w')
                                                    end)) = sink w ++ [r]).
  { intros [[u|e] w3] H3; cbn in *; now rewrite H3, Hs1, Hs0. }
  destruct B as [|[|[|B]]]; [lia| | |];
    cbn [forEach]; unfold tryCatch, scanBatch, bind, lift; cbn [rmapM rbind];
    rewrite ?Hc0, ?Hc1, ?Hc2; cbn [rbind combine forEach snd fst]; unfold ret;
    rewrite Hrun0; cbn [snd fst]; rewrite ?Hrun1; cbn [snd fst];
    rewrite ?Hrun1; cbn [snd fst]; apply Hend, Hs2.
Qed.

(** *** Emission order *)

Lemma key_le_refl k : key_le k k.
Proof. right. split; [reflexivity|lia]. Qed.

Lemma key_le_trans k1 k2 k3 : key_le k1 k2 -> key_le k2 k3 -> key_le k1 k3.
Proof. unfold key_le. destruct k1, k2, k3; cbn. lia. Qed.

Lemma same_key_ascending k (em : list MatchRecord) :
  Forall (fun r => key r = k) em -> ascending em.
Proof.
  induction 1 as [|r em Hr Hem IH]; [constructor|].
  constructor; [exact IH|].
  eapply Forall_impl; [exact Hem|]. intros r' Hr'. unfold precedes.
  rewrite Hr, Hr'. apply key_le_refl.
Qed.

Lemma upTo_emit k w w' em :
  upTo k w -> sink w' = sink w ++ em -> Forall (fun r => key r = k) em -> upTo k w'.
Proof.
  intros [Hasc Hle] Hs Hem. unfold upTo. rewrite Hs. split.
  - apply StronglySorted_app_2; [|exact Hasc|now apply (same_key_ascending k)].
    intros r1 r2 H1 H2. unfold precedes.
    rewrite Forall_forall in Hle, Hem. rewrite (Hem r2 H2). now apply Hle.
  - apply Forall_app. split; [exact Hle|].
    eapply Forall_impl; [exact Hem|]. intros r ->. apply key_le_refl.
Qed.

Lemma upTo_mono k k' w : key_le k k' -> upTo k w -> upTo k' w.
Proof.
  intros Hk [Hasc Hle]. split; [exact Hasc|].
  eapply Forall_impl; [exact Hle|]. intros r Hr. now apply key_le_trans with k.
Qed.

Lemma before_upTo b w : before b w -> upTo (b, 0) w.
Proof.
  intros [Hasc Hlt]. split; [exact Hasc|].
  eapply Forall_impl; [exact Hlt|]. intros r Hr. now left.
Qed.

Lemma upTo_before b j x w : (b < x)%Z -> upTo (b, j) w -> before x w.
Proof.
  intros Hx [Hasc Hle]. split; [exact Hasc|].
  eapply Forall_impl; [exact Hle|]. intros r Hr. unfold key_le in Hr. cbn in Hr. lia.
Qed.

Lemma before_mono b x w : (b <= x)%Z -> before b w -> before x w.
Proof.
  intros Hx [Hasc Hlt]. split; [exact Hasc|].
  eapply Forall_impl; [exact Hlt|]. intros r Hr. cbn in Hr. lia.
Qed.

Lemma scanExtrinsic_upTo b ex idx w :
  upTo (b, idx) w ->
  upTo (b, idx) (snd (scanExtrinsic objToString toHuman api b ex idx w)).
Proof.
  intros Hw. pose proof (scanExtrinsic_counted b ex idx w) as Hc.
  assert (Hc' : Counted (at_ b idx) w (snd (scanExtrinsic objToString toHuman api b ex idx w))).
  { destruct (scanExtrinsic objToString toHuman api b ex idx w) as [[u|e] w']; exact Hc. }
  destruct Hc' as (x & _ & em & Hs & HG & _).
  apply (upTo_emit _ w _ em Hw Hs).
  eapply Forall_impl; [exact HG|]. intros r Hr. apply Hr.
Qed.

Lemma scanBlock_upTo b exs :
  forall i w, upTo (b, i) w ->
  exists j, upTo (b, j) (snd (forEachIdx (scanExtrinsic objToString toHuman api b) i exs w)).
Proof.
  induction exs as [|ex exs IH]; intros i w Hw; cbn [forEachIdx].
  - exists i. exact Hw.
  - pose proof (scanExtrinsic_upTo b ex i w Hw) as H1.
    destruct (scanExtrinsic objToString toHuman api b ex i w) as [[u|e] w1]; cbn [snd] in *.
    + apply IH. apply (upTo_mono (b, i)); [right; cbn; lia|exact H1].
    + exists i. exact H1.
Qed.

Lemma scanBlock_before b exs w x :
  (b < x)%Z -> before b w ->
  before x (snd (forEachIdx (scanExtrinsic objToString toHuman api b) 0 exs w)).
Proof.
  intros Hx Hw. destruct (scanBlock_upTo b exs 0 w (before_upTo b w Hw)) as [j Hj].
  now apply (upTo_before b j).
Qed.

Lemma blocks_before :
  forall batch blocks w lo x,
    StronglySorted Z.lt batch -> Forall (Z.le lo) batch -> Forall (fun b => (b < x)%Z) batch ->
    (lo <= x)%Z -> before lo w ->
    before x (snd (forEach (fun '(blockNumber, extrinsics) =>
                              forEachIdx (scanExtrinsic objToString toHuman api blockNumber)
                                         0 extrinsics)
                           (combine batch blocks) w)).
Proof.
  induction batch as [|b batch IH]; intros blocks w lo x Hsorted Hlo Hx Hle Hw.
  - cbn. now apply (before_mono lo).
  - destruct blocks as [|exs blocks]; cbn [combine forEach].
    { cbn. now apply (before_mono lo). }
    apply StronglySorted_cons in Hsorted as [Hb Hsorted].
    apply Forall_cons in Hlo as [Hlob Hlo]. apply Forall_cons in Hx as [Hxb Hx].
    assert (H1 : before (b + 1)
                   (snd (forEachIdx (scanExtrinsic objToString toHuman api b) 0 exs w))).
    { apply scanBlock_before; [lia|]. now apply (before_mono lo). }
    destruct (forEachIdx (scanExtrinsic objToString toHuman api b) 0 exs w) as [[u|e] w1];
      cbn [snd] in *.
    + apply (IH blocks w1 (b + 1)%Z x); auto; [|lia].
      eapply Forall_impl; [exact Hb|]. intros y Hy. cbn in Hy. lia.
    + apply (before_mono (b + 1)); [lia|exact H1].
Qed.

Lemma scanBatch_before batch w lo x :
  StronglySorted Z.lt batch -> Forall (Z.le lo) batch -> Forall (fun b => (b < x)%Z) batch ->
  (lo <= x)%Z -> before lo w ->
  before x (snd (scanBatch objToString toHuman api chain batch w)).
Proof.
  intros Hsorted Hlo Hx Hle Hw. unfold scanBatch, bind, lift.
  destruct (rmapM chain batch) as [blocks|e]; cbn [snd].
  - now apply (blocks_before batch blocks w lo x).
  - now apply (before_mono lo).
Qed.

Lemma batches_before :
  forall batches w lo x,
    StronglySorted Z.lt (concat batches) -> Forall (Z.le lo) (concat batches) ->
    Forall (fun b => (b < x)%Z) (concat batches) -> (lo <= x)%Z -> before lo w ->
    before x (snd (forEach (fun batch => tryCatch (scanBatch objToString toHuman api chain batch))
                           batches w)).
Proof.
  induction batches as [|batch rest IH]; intros w lo x Hsorted Hlo Hx Hle Hw.
  - cbn. now apply (before_mono lo).
  - cbn [concat] in *. cbn [forEach]. unfold tryCatch at 1.
    apply StronglySorted_app in Hsorted as (Hcross & Hs1 & Hs2).
    apply Forall_app in Hlo as [Hlo1 Hlo2]. apply Forall_app in Hx as [Hx1 Hx2].
    set (lo' := match concat rest with [] => x | h :: _ => h end).
    assert (Hlo' : (lo <= lo')%Z).
    { subst lo'. destruct (concat rest) as [|h t]; [exact Hle|].
      now apply Forall_cons in Hlo2 as [? _]. }
    assert (Hlo'x : (lo' <= x)%Z).
    { subst lo'. destruct (concat rest) as [|h t]; [lia|].
      apply Forall_cons in Hx2 as [? _]. lia. }
    assert (Hbatch : Forall (fun b => (b < lo')%Z) batch).
    { subst lo'. destruct (concat rest) as [|h t]; [exact Hx1|].
      apply Forall_forall. intros b Hb. apply (Hcross b h Hb). now left. }
    assert (Hrest : Forall (Z.le lo') (concat rest)).
    { subst lo'. destruct (concat rest) as [|h t]; [constructor|].
      apply StronglySorted_cons in Hs2 as [Hh _].
      constructor; [cbn; lia|].
      eapply Forall_impl; [exact Hh|]. intros y Hy. cbn in Hy |- *. lia. }
    apply (IH _ lo' x); auto.
    now apply (scanBatch_before batch w lo lo').
Qed.

Lemma chunkArray_loop_concat {A} (arr : list A) (size : nat) :
  0 < size ->
  forall fuel i, length arr <= fuel + i ->
  concat (chunkArray_loop fuel arr size i) = skipn i arr.
Proof.
  intros Hsize. induction fuel as [|fuel IH]; intros i Hfuel; cbn [chunkArray_loop].
  - cbn. symmetry. apply drop_ge. lia.
  - destruct (i <? length arr) eqn:Hi; cbn [concat].
    + rewrite IH by lia. rewrite <- drop_drop. apply take_drop.
    + apply Nat.ltb_ge in Hi. symmetry. apply drop_ge. lia.
Qed.

(** The batches are the block numbers, in order, cut into pieces. *)
Lemma chunkArray_concat {A} (arr : list A) (size : nat) :
  0 < size -> concat (chunkArray arr size) = arr.
Proof.
  intros Hsize. unfold chunkArray.
  rewrite (chunkArray_loop_concat arr size Hsize) by lia. reflexivity.
Qed.

Lemma allBlocks_sorted startBlock endBlock :
  StronglySorted Z.lt (allBlocks startBlock endBlock).
Proof.
  unfold allBlocks. generalize (Z.to_nat (endBlock - startBlock + 1)) as n.
  generalize 0 as k. intros k n. revert k.
  induction n as [|n IH]; intros k; cbn [seq map]; constructor; [apply IH|].
  apply Forall_forall. intros y Hy. apply list_elem_of_In, in_map_iff in Hy as (i & <- & Hi).
  apply in_seq in Hi. lia.
Qed.

Lemma allBlocks_bounds startBlock endBlock :
  Forall (fun b => (startBlock <= b < endBlock + 1)%Z) (allBlocks startBlock endBlock).
Proof.
  unfold allBlocks. apply Forall_forall. intros y Hy.
  apply list_elem_of_In, in_map_iff in Hy as (i & <- & Hi). apply in_seq in Hi. lia.
Qed.

(** Whatever the chain holds, records are written by ascending block and,
    within a block, by ascending extrinsic index. *)
Lemma scanBlocks_ascending startBlock endBlock B w :
  0 < B -> before startBlock w ->
  ascending (sink (snd (scanBlocks objToString toHuman api chain startBlock endBlock B w))).
Proof.
  intros HB Hw. unfold scanBlocks.
  pose proof (allBlocks_bounds startBlock endBlock) as Hb.
  apply (batches_before _ w startBlock (Z.max startBlock (endBlock + 1))).
  - rewrite chunkArray_concat by exact HB. apply allBlocks_sorted.
  - rewrite chunkArray_concat by exact HB.
    eapply Forall_impl; [exact Hb|]. intros y Hy. cbn in Hy |- *. lia.
  - rewrite chunkArray_concat by exact HB.
    eapply Forall_impl; [exact Hb|]. intros y Hy. cbn in Hy |- *. lia.
  - lia.
  - exact Hw.
Qed.

(** Over a whole scan every record written is reproducible; [total] is
    at least the number of records and the unique set is no larger than
    [total]; the scan itself does not raise. *)
Lemma scanBlocks_counted startBlock endBlock B :
  ensures (Counted (reproducible api)) (fun _ _ => False)
          (scanBlocks objToString toHuman api chain startBlock endBlock B).
Proof.
  pose proof (Counted_refl (reproducible api)) as Hrefl.
  pose proof (Counted_trans (reproducible api)) as Htrans.
  unfold scanBlocks.
  apply (ensures_forEach _ _ Hrefl Htrans); [contradiction|].
  intros batch _.
  eapply ensures_weaken; [| |apply ensures_tryCatch].
  - intros w w' [H|H]; exact H.
  - auto.
  - unfold scanBatch. apply (ensures_bind_lift _ _ Hrefl). intros blocks _.
    apply (ensures_forEach _ _ Hrefl Htrans Htrans). intros [b exs] _.
    eapply ensures_weaken; [| |apply (scanBlock_counted b exs 0)];
      intros w w'; apply Counted_weaken; intros r Hr; apply Hr.
Qed.

Lemma scan_counters startBlock endBlock B :
  let w := snd (scanBlocks objToString toHuman api chain startBlock endBlock B initialWorld) in
  Forall (reproducible api) (sink w)
  /\ (Z.of_nat (length (sink w)) <= total (counters w))%Z
  /\ (Z.of_nat (size (unique (counters w))) <= total (counters w))%Z.
Proof.
  intros w. pose proof (scanBlocks_counted startBlock endBlock B initialWorld) as H.
  fold w in H.
  assert (Hc : Counted (reproducible api) initialWorld w).
  { subst w. destruct (scanBlocks _ _ _ _ _ _ _ _) as [[u|e] w']; [exact H|contradiction]. }
  destruct Hc as (x & Hx & em & Hs & HG & Ht & _ & Hz).
  cbn in Hs, Ht, Hz. rewrite size_empty in Hz. rewrite Hs. repeat split; [exact HG|lia|lia].
Qed.

End ScanFacts.



(** The exception of a malformed batch is caught per batch of blocks: with
    blocks 100 to 102 fetched together, the match of block 101 is never
    looked at; fetched one by one, it is found. *)
Example malformed_batch_hides_later_blocks :
  sink (snd (scanBlocks plainToString plainToHuman strictApi brokenBlocks 100 102 20
               initialWorld)) = []
  /\ map block (sink (snd (scanBlocks plainToString plainToHuman strictApi brokenBlocks
                             100 102 1 initialWorld))) = [101%Z].
Proof. split; vm_compute; reflexivity. Qed.

(** * Further properties *)

(** ** [retry] *)

Lemma retry_from_spec {A} (fn : nat -> Res A) :
  forall remaining i err ms,
    let r := retry_from fn remaining i err ms in
    match outcome r with
    | inl a =>
        exists k, i <= k < i + remaining
                  /\ calls r = S k
                  /\ fn k = Ok a
                  /\ (forall j, i <= j < k -> exists e, fn j = Throw e)
                  /\ (2 * (waited r - ms)
                      = RPC_RETRY_DELAY * (Z.of_nat k * (Z.of_nat k + 1)
                                           - Z.of_nat i * (Z.of_nat i + 1)))%Z
    | inr e =>
        calls r = i + remaining
        /\ (forall j, i <= j < i + remaining -> exists e', fn j = Throw e')
        /\ (2 * (waited r - ms)
            = RPC_RETRY_DELAY * (Z.of_nat (i + remaining) * (Z.of_nat (i + remaining) + 1)
                                 - Z.of_nat i * (Z.of_nat i + 1)))%Z
        /\ e = match remaining with
               | O => err
               | S l => match fn (i + l) with
                        | Throw e' => Some e'
                        | Ok _ => None
                        end
               end
    end.
Proof.
  induction remaining as [|remaining IH]; intros i err ms; cbn [retry_from].
  - cbn. rewrite Nat.add_0_r. repeat split; [intros j Hj; lia|lia].
  - destruct (fn i) as [a|e] eqn:Hfn.
    + cbn. exists i. repeat split; [lia|lia|exact Hfn|intros j Hj; lia|lia].
    + specialize (IH (S i) (Some e) (ms + RPC_RETRY_DELAY * (Z.of_nat i + 1))%Z).
      cbn zeta in IH.
      destruct (outcome (retry_from fn remaining (S i) (Some e)
                           (ms + RPC_RETRY_DELAY * (Z.of_nat i + 1))%Z)) as [a|e'].
      * destruct IH as (k & Hk & Hc & Hfk & Hfail & Hw).
        exists k. repeat split; [lia|lia|exact Hc|exact Hfk| |].
        -- intros j Hj. destruct (Nat.eq_dec j i) as [->|Hne]; [now exists e|].
           apply Hfail. lia.
        -- unfold RPC_RETRY_DELAY in *. nia.
      * destruct IH as (Hc & Hfail & Hw & He).
        repeat split.
        -- lia.
        -- intros j Hj. destruct (Nat.eq_dec j i) as [->|Hne]; [now exists e|].
           apply Hfail. lia.
        -- replace (i + S remaining) with (S i + remaining) by lia.
           unfold RPC_RETRY_DELAY in *. nia.
        -- rewrite He. destruct remaining as [|l].
           ++ rewrite Nat.add_0_r, Hfn. reflexivity.
           ++ replace (i + S l) with (S i + l) by lia. reflexivity.
Qed.

(** X1: [retry] calls [fn] at most [limit] times.  It returns the value
    of the first call that succeeds, all calls before it having failed;
    when all [limit] calls fail it throws the error of the last one, and
    undefined when [limit] is 0.  After [k] failures it has waited
    [500 * (1 + 2 + .. + k)] milliseconds. *)
Theorem retry_outcome {A} (fn : nat -> Res A) (limit : nat) :
  let r := retry fn limit in
  calls r <= limit
  /\ match outcome r with
     | inl a =>
         0 < calls r
         /\ fn (pred (calls r)) = Ok a
         /\ (forall j, j < pred (calls r) -> exists e, fn j = Throw e)
         /\ waited r = (250 * Z.of_nat (pred (calls r)) * Z.of_nat (calls r))%Z
     | inr err =>
         calls r = limit
         /\ (forall j, j < limit -> exists e, fn j = Throw e)
         /\ waited r = (250 * Z.of_nat limit * (Z.of_nat limit + 1))%Z
         /\ err = match limit with
                  | O => None
                  | S l => match fn l with
                           | Throw e => Some e
                           | Ok _ => None
                           end
                  end
     end.
Proof.
  intros r. pose proof (retry_from_spec fn limit 0 None 0%Z) as H.
  cbn zeta in H. fold (retry fn limit) in H. fold r in H.
  destruct (outcome r) as [a|err].
  - destruct H as (k & Hk & Hc & Hfk & Hfail & Hw). rewrite Hc. cbn [pred].
    repeat split; [lia|lia|exact Hfk|intros j Hj; apply Hfail; lia|].
    unfold RPC_RETRY_DELAY in Hw. nia.
  - destruct H as (Hc & Hfail & Hw & He). cbn in Hc. rewrite Hc.
    repeat split; [lia|intros j Hj; apply Hfail; lia| |exact He].
    cbn [Nat.add] in Hw. unfold RPC_RETRY_DELAY in Hw. nia.
Qed.

(** X2: against a function that answers every call the same way, [retry]
    with a positive limit returns that answer after one call and no wait
    when it is a value, and throws that error after [limit] calls when it
    is an error: it is the call itself, as the scan of the blocks takes
    it. *)
Theorem retry_of_steady_function {A} (answer : Res A) (limit : nat) :
  0 < limit ->
  let r := retry (fun _ => answer) limit in
  outcome r = match answer with
              | Ok a => inl a
              | Throw e => inr (Some e)
              end
  /\ match answer with
     | Ok _ => calls r = 1 /\ waited r = 0%Z
     | Throw _ => calls r = limit
     end.
Proof.
  intros Hlimit r. destruct limit as [|l]; [lia|].
  pose proof (retry_from_spec (fun _ => answer) (S l) 0 None 0%Z) as H.
  cbn zeta in H. fold (retry (fun _ => answer) (S l)) in H. fold r in H.
  destruct answer as [a|e].
  - subst r. cbn. split; [reflexivity|split; reflexivity].
  - destruct (outcome r) as [a|err].
    + destruct H as (k & _ & _ & Hok & _). discriminate.
    + destruct H as (Hc & _ & _ & He). now rewrite He.
Qed.

Lemma retry_of_steady_function_witness :
  outcome (retry (fun _ => Throw (ApiError "disconnected") : Res nat) RPC_RETRY_LIMIT)
  = inr (Some (ApiError "disconnected")).
Proof.
  apply (retry_of_steady_function (Throw (ApiError "disconnected") : Res nat) RPC_RETRY_LIMIT).
  unfold RPC_RETRY_LIMIT. lia.
Defined.

(** ** [chunkArray] and the batches of [main] *)

Lemma chunkArray_loop_slices {A} (arr : list A) (size : nat) :
  0 < size ->
  forall fuel i, length arr <= fuel + i ->
    let cs := chunkArray_loop fuel arr size i in
    (forall k, k < length cs ->
       nth k cs [] = firstn size (skipn (i + k * size) arr) /\ i + k * size < length arr)
    /\ length arr <= i + length cs * size.
Proof.
  intros Hsize. induction fuel as [|fuel IH]; intros i Hfuel; cbn [chunkArray_loop].
  - cbn. split; [intros k Hk; lia|lia].
  - destruct (i <? length arr) eqn:Hi.
    + apply Nat.ltb_lt in Hi.
      destruct (IH (i + size)) as [Hnth Hcover]; [lia|]. cbn zeta in *. split.
      * intros [|k] Hk; cbn [nth length] in *.
        -- rewrite Nat.add_0_r. split; [reflexivity|lia].
        -- destruct (Hnth k) as [Hslice Hin]; [lia|].
           replace (i + S k * size) with (i + size + k * size) by lia.
           split; [exact Hslice|exact Hin].
      * cbn [length]. lia.
    + apply Nat.ltb_ge in Hi. cbn. split; [intros k Hk; lia|lia].
Qed.

(** X3: for a positive [size], the chunks of [chunkArray] are the array
    cut in order: chunk [k] is [arr.slice(k * size, k * size + size)], it
    is not empty and has at most [size] elements, the chunks put together
    give the array back, and there are just enough of them to cover it. *)
Theorem chunkArray_slices {A} (arr : list A) (size : nat) :
  0 < size ->
  let chunks := chunkArray arr size in
  concat chunks = arr
  /\ (forall k, k < length chunks ->
        nth k chunks [] = firstn size (skipn (k * size) arr)
        /\ 0 < length (nth k chunks []) <= size
        /\ k * size < length arr)
  /\ length arr <= length chunks * size.
Proof.
  intros Hsize chunks.
  destruct (chunkArray_loop_slices arr size Hsize (length arr) 0) as [Hnth Hcover]; [lia|].
  cbn zeta in *. fold (chunkArray arr size) in Hnth, Hcover. fold chunks in Hnth, Hcover.
  split; [|split].
  - subst chunks. unfold chunkArray.
    rewrite (chunkArray_loop_concat arr size Hsize) by lia. reflexivity.
  - intros k Hk. destruct (Hnth k Hk) as [Hslice Hin]. cbn [Nat.add] in Hslice, Hin.
    split; [exact Hslice|]. split; [|exact Hin].
    rewrite Hslice, length_firstn, length_skipn. lia.
  - lia.
Qed.

Lemma chunkArray_slices_witness :
  chunkArray [1; 2; 3; 4; 5] 2 = [[1; 2]; [3; 4]; [5]]
  /\ concat (chunkArray [1; 2; 3; 4; 5] 2) = [1; 2; 3; 4; 5].
Proof.
  split; [reflexivity|].
  apply (chunkArray_slices [1; 2; 3; 4; 5] 2). lia.
Defined.

Lemma allBlocks_In startBlock endBlock b :
  In b (allBlocks startBlock endBlock) <-> (startBlock <= b <= endBlock)%Z.
Proof.
  unfold allBlocks. rewrite in_map_iff. split.
  - intros (i & <- & Hi). apply in_seq in Hi. lia.
  - intros Hb. exists (Z.to_nat (b - startBlock)). split; [lia|]. apply in_seq. lia.
Qed.

Lemma sorted_lt_NoDup (l : list Z) : StronglySorted Z.lt l -> NoDup l.
Proof.
  induction 1 as [|b l Hl IH Hb]; [constructor|].
  constructor; [|exact IH].
  intros Hin. rewrite Forall_forall in Hb. apply Hb in Hin. lia.
Qed.

(** X4: the batches [main] scans hold every block number from
    [startBlock] to [endBlock], and no other, exactly once and in
    ascending order, whatever the positive batch size; no batch is empty
    or longer than the batch size; together they hold
    [endBlock - startBlock + 1] blocks, the number the summary reports as
    scanned, when that is not negative; an empty or reversed range gives
    no batch. *)
Theorem scan_batches_cover_range (startBlock endBlock : Z) (BATCH_SIZE : nat) :
  0 < BATCH_SIZE ->
  let batches := chunkArray (allBlocks startBlock endBlock) BATCH_SIZE in
  (forall b, In b (concat batches) <-> (startBlock <= b <= endBlock)%Z)
  /\ StronglySorted Z.lt (concat batches)
  /\ NoDup (concat batches)
  /\ Forall (fun batch => 0 < length batch <= BATCH_SIZE) batches
  /\ Z.of_nat (length (concat batches)) = Z.max 0 (endBlock - startBlock + 1)
  /\ ((endBlock < startBlock)%Z -> batches = []).
Proof.
  intros HB batches.
  assert (Hcat : concat batches = allBlocks startBlock endBlock).
  { subst batches. unfold chunkArray.
    rewrite (chunkArray_loop_concat _ BATCH_SIZE HB) by lia. reflexivity. }
  rewrite Hcat. split; [|split; [|split; [|split; [|split]]]].
  - intros b. apply allBlocks_In.
  - apply allBlocks_sorted.
  - apply sorted_lt_NoDup, allBlocks_sorted.
  - destruct (chunkArray_loop_slices (allBlocks startBlock endBlock) BATCH_SIZE HB
                (length (allBlocks startBlock endBlock)) 0) as [Hnth _]; [lia|].
    cbn zeta in Hnth. fold (chunkArray (allBlocks startBlock endBlock) BATCH_SIZE) in Hnth.
    fold batches in Hnth.
    apply Forall_forall. intros batch Hin.
    apply list_elem_of_In, (In_nth _ _ []) in Hin as (k & Hk & <-).
    destruct (Hnth k Hk) as [Hslice Hlt]. cbn [Nat.add] in Hslice, Hlt.
    rewrite Hslice, length_firstn, length_skipn. lia.
  - unfold allBlocks. rewrite length_map, length_seq. lia.
  - intros Hlt. subst batches. unfold allBlocks.
    replace (Z.to_nat (endBlock - startBlock + 1)) with 0 by lia. reflexivity.
Qed.

Lemma scan_batches_cover_range_witness :
  concat (chunkArray (allBlocks 100 106) 3) = allBlocks 100 106
  /\ NoDup (concat (chunkArray (allBlocks 100 106) 3)).
Proof.
  split; [reflexivity|].
  apply (scan_batches_cover_range 100 106 3). lia.
Defined.

(** ** The hashed buffer *)

Lemma byte_to_of_Z (z : Z) : Blake2b.byte_to_Z (Blake2b.byte_of_Z z) = (z mod 256)%Z.
Proof.
  unfold Blake2b.byte_to_Z, Blake2b.byte_of_Z.
  pose proof (Z.mod_pos_bound z 256 ltac:(lia)) as Hz.
  destruct (Byte.of_N (Z.to_N (z mod 256))) as [b|] eqn:Hb.
  - apply Byte.to_of_N in Hb. rewrite Hb. lia.
  - apply Byte.of_N_None_iff in Hb. lia.
Qed.

(** X5: the buffer the deriver hashes determines the parent bytes and the
    index modulo 256, and nothing more of the index: two buffers are
    equal exactly when the parents are equal and the indices agree modulo
    256; the buffer is 17 bytes longer than the parent. *)
Theorem derivationBuffer_injective (P P' : list byte) (i j : Z) :
  (derivationBuffer P i = derivationBuffer P' j <-> P = P' /\ (i mod 256 = j mod 256)%Z)
  /\ length (derivationBuffer P i) = 17 + length P.
Proof.
  split; [split|].
  - unfold derivationBuffer. intros H.
    apply app_inv_head in H. apply app_inj_tail in H as [HP Hb]. split; [exact HP|].
    apply (f_equal Blake2b.byte_to_Z) in Hb. rewrite !byte_to_of_Z in Hb.
    change 0xff%Z with (Z.ones 8) in Hb. rewrite !Z.land_ones in Hb by lia.
    change (2 ^ 8)%Z with 256%Z in Hb. rewrite !Z.mod_mod in Hb by lia. exact Hb.
  - intros [-> H]. unfold derivationBuffer. do 3 f_equal.
    change 0xff%Z with (Z.ones 8). rewrite !Z.land_ones by lia.
    change (2 ^ 8)%Z with 256%Z. now rewrite H.
  - unfold derivationBuffer. rewrite !length_app. cbn. lia.
Qed.

(** ** Records and the unique set *)

Lemma accountsOf_app (e1 e2 : list MatchRecord) :
  accountsOf (e1 ++ e2) = accountsOf e1 ∪ accountsOf e2.
Proof. unfold accountsOf. now rewrite map_app, list_to_set_app_L. Qed.

Lemma Matched_refl w : Matched w w.
Proof.
  exists []. rewrite app_nil_r. split; [reflexivity|].
  unfold accountsOf. cbn. now rewrite union_empty_r_L.
Qed.

Lemma Covered_refl w : Covered w w.
Proof.
  exists []. rewrite app_nil_r. split; [reflexivity|].
  unfold accountsOf. cbn. now rewrite union_empty_r_L.
Qed.

Lemma Matched_Covered w w' : Matched w w' -> Covered w w'.
Proof. intros (em & Hs & Hu). exists em. split; [exact Hs|]. now rewrite Hu. Qed.

Lemma Matched_trans w1 w2 w3 : Matched w1 w2 -> Matched w2 w3 -> Matched w1 w3.
Proof.
  intros (e1 & Hs1 & Hu1) (e2 & Hs2 & Hu2). exists (e1 ++ e2). split.
  - now rewrite Hs2, Hs1, app_assoc.
  - now rewrite Hu2, Hu1, accountsOf_app, union_assoc_L.
Qed.

Lemma Covered_trans w1 w2 w3 : Covered w1 w2 -> Covered w2 w3 -> Covered w1 w3.
Proof.
  intros (e1 & Hs1 & Hu1) (e2 & Hs2 & Hu2). exists (e1 ++ e2). split.
  - now rewrite Hs2, Hs1, app_assoc.
  - rewrite accountsOf_app, union_assoc_L.
    transitivity (unique (counters w2) ∪ accountsOf e2); [|exact Hu2].
    apply union_mono_r, Hu1.
Qed.

Lemma Matched_Covered_trans w1 w2 w3 : Matched w1 w2 -> Covered w2 w3 -> Covered w1 w3.
Proof. intros H1 H2. apply Matched_Covered in H1. now apply (Covered_trans w1 w2 w3). Qed.

Lemma Covered_silent w w' :
  sink w' = sink w -> unique (counters w) ⊆ unique (counters w') -> Covered w w'.
Proof.
  intros Hs Hu. exists []. rewrite app_nil_r. split; [exact Hs|].
  unfold accountsOf. cbn. now rewrite union_empty_r_L.
Qed.

Section Accounts.

Variable objToString : Val -> string.
Variable toHuman : Val -> Val.
Variable api : Api.
Variable chain : Z -> Res (list Extrinsic).

Lemma matchAsDerivative_matched callArgs blockNumber extrinsicIndex signer :
  ensures Matched Covered
          (matchAsDerivative objToString toHuman callArgs api blockNumber
                             extrinsicIndex signer writeDetail_main).
Proof.
  unfold matchAsDerivative.
  apply ensures_bind_lift; [apply Covered_refl|]. intros a0 _.
  apply ensures_bind_lift; [apply Covered_refl|]. intros n _.
  apply ensures_bind_lift; [apply Covered_refl|]. intros innerCall _.
  apply ensures_bind_lift; [apply Covered_refl|]. intros d _.
  intros w. unfold bind, countMatch, modify, lift, writeDetail_main.
  destruct (innerCallDetail objToString toHuman innerCall) as [detail|e]; cbn.
  - eexists [_]. split; [reflexivity|]. unfold accountsOf. cbn.
    rewrite union_empty_r_L. apply union_comm_L.
  - apply Covered_silent; [reflexivity|]. cbn. apply union_subseteq_r.
Qed.

Lemma checkAsDerivative_matched callMethod callArgs blockNumber extrinsicIndex signer depth :
  ensures Matched Covered
          (checkAsDerivative objToString toHuman callMethod callArgs api blockNumber
                             extrinsicIndex signer writeDetail_main depth).
Proof.
  apply (ensures_checkAsDerivative _ _ Matched_refl Covered_refl Matched_trans
           Matched_Covered_trans objToString toHuman api blockNumber extrinsicIndex signer
           writeDetail_main (fun _ _ _ => True)); auto.
  - intros _ _ name _ w. cbn. exists []. rewrite app_nil_r. split; [reflexivity|].
    unfold accountsOf. cbn. now rewrite union_empty_r_L.
  - intros. apply matchAsDerivative_matched.
Qed.

Lemma scanExtrinsic_covered b ex idx :
  ensures Covered Covered (scanExtrinsic objToString toHuman api b ex idx).
Proof.
  unfold scanExtrinsic.
  apply (ensures_bind _ _ Covered_trans Covered_trans);
    [intros w; cbn; now apply Covered_silent|].
  intros _. destruct (ex_signer ex) as [signerString|]; [|now apply ensures_ret, Covered_refl].
  apply (ensures_bind_lift _ _ Covered_refl). intros sec _.
  destruct (is_str sec "utility"); [|now apply ensures_ret, Covered_refl].
  apply (ensures_bind _ _ Covered_trans Covered_trans);
    [intros w; cbn; now apply Covered_silent|].
  intros _. apply (ensures_bind_lift _ _ Covered_refl). intros margs _.
  eapply ensures_weaken; [| |apply checkAsDerivative_matched]; auto using Matched_Covered.
Qed.

Lemma scanBlocks_covered startBlock endBlock B :
  ensures Covered (fun _ _ => False)
          (scanBlocks objToString toHuman api chain startBlock endBlock B).
Proof.
  unfold scanBlocks.
  apply (ensures_forEach _ _ Covered_refl Covered_trans); [contradiction|].
  intros batch _.
  eapply ensures_weaken; [| |apply ensures_tryCatch].
  - intros w w' [H|H]; exact H.
  - auto.
  - unfold scanBatch. apply (ensures_bind_lift _ _ Covered_refl). intros blocks _.
    apply (ensures_forEach _ _ Covered_refl Covered_trans Covered_trans). intros [b exs] _.
    apply (ensures_forEachIdx _ _ Covered_refl Covered_trans Covered_trans).
    intros ex idx _. apply scanExtrinsic_covered.
Qed.

End Accounts.

(** X6: the unique set follows the records: a walk appends records to the
    sink and adds at least their derived accounts to [counters.unique];
    when the walk returns, it has added exactly the derived accounts of
    the records it wrote. *)
Theorem walk_adds_accounts_of_records objToString toHuman api blockNumber extrinsicIndex
    signer callMethod callArgs depth w :
  let res := checkAsDerivative objToString toHuman callMethod callArgs api blockNumber
               extrinsicIndex signer writeDetail_main depth w in
  exists emitted,
    sink (snd res) = sink w ++ emitted
    /\ unique (counters w) ∪ accountsOf emitted ⊆ unique (counters (snd res))
    /\ (fst res = Ok tt ->
        unique (counters (snd res)) = unique (counters w) ∪ accountsOf emitted).
Proof.
  intros res.
  pose proof (checkAsDerivative_matched objToString toHuman api callMethod callArgs
                blockNumber extrinsicIndex signer depth w) as H.
  fold res in H. destruct res as [[[]|e] w']; cbn [fst snd].
  - destruct H as (em & Hs & Hu). exists em. split; [exact Hs|]. split; [now rewrite Hu|].
    intros _. exact Hu.
  - destruct H as (em & Hs & Hu). exists em. split; [exact Hs|]. split; [exact Hu|].
    discriminate.
Qed.

Lemma walk_adds_accounts_of_records_witness :
  let res := checkAsDerivative plainToString plainToHuman asDerivative5 asDerivative5_args
               strictApi 101 3 alice writeDetail_main 0 initialWorld in
  exists emitted,
    sink (snd res) = emitted /\ unique (counters (snd res)) = accountsOf emitted.
Proof.
  intros res.
  assert (Hok : fst res = Ok tt) by (vm_compute; reflexivity).
  destruct (walk_adds_accounts_of_records plainToString plainToHuman strictApi 101 3 alice
              asDerivative5 asDerivative5_args 0 initialWorld) as (em & Hs & _ & Heq).
  exists em. split; [exact Hs|].
  fold res in Heq. rewrite (Heq Hok). apply union_empty_l_L.
Defined.

(** X7: a scan of a range of blocks, with a positive batch size, returns
    normally whatever the chain answers and whatever the extrinsics hold;
    it only appends to the records written before; every record it
    appends has a derived account the deriver reproduces from the
    record's signer and index; [counters.total] grows by at least the
    number of records, and [counters.unique] holds the derived account of
    every record and grows by no more than [total]. *)
Theorem scan_returns_and_appends objToString toHuman api chain
    (startBlock endBlock : Z) (BATCH_SIZE : nat) (w : World) :
  0 < BATCH_SIZE ->
  exists w' emitted,
    scanBlocks objToString toHuman api chain startBlock endBlock BATCH_SIZE w = (Ok tt, w')
    /\ sink w' = sink w ++ emitted
    /\ Forall (reproducible api) emitted
    /\ (total (counters w) + Z.of_nat (length emitted) <= total (counters w'))%Z
    /\ unique (counters w) ∪ accountsOf emitted ⊆ unique (counters w')
    /\ (Z.of_nat (size (unique (counters w'))) - Z.of_nat (size (unique (counters w)))
        <= total (counters w') - total (counters w))%Z.
Proof.
  intros _.
  pose proof (scanBlocks_counted objToString toHuman api chain startBlock endBlock
                BATCH_SIZE w) as Hc.
  pose proof (scanBlocks_covered objToString toHuman api chain startBlock endBlock
                BATCH_SIZE w) as Hv.
  destruct (scanBlocks _ _ _ _ _ _ _ _) as [[[]|e] w']; [|contradiction].
  destruct Hc as (x & Hx & em & Hs & HG & Ht & _ & Hz).
  destruct Hv as (em' & Hs' & Hu).
  assert (em' = em) as -> by (rewrite Hs in Hs'; now apply app_inv_head in Hs').
  exists w', em. repeat split; auto; lia.
Qed.

Lemma scan_returns_and_appends_witness :
  exists w' emitted,
    scanBlocks plainToString plainToHuman strictApi brokenBlocks 100 102 1 initialWorld
    = (Ok tt, w')
    /\ sink w' = emitted.
Proof.
  destruct (scan_returns_and_appends plainToString plainToHuman strictApi brokenBlocks
              100 102 1 initialWorld) as (w' & em & Hrun & Hs & _); [lia|].
  exists w', em. split; [exact Hrun|exact Hs].
Defined.

(** ** Batches that cannot be fetched *)

Lemma rmapM_throw {A B} (f : A -> Res B) (xs : list A) (x : A) (e : Exn) :
  In x xs -> f x = Throw e -> exists e', rmapM f xs = Throw e'.
Proof.
  induction xs as [|y ys IH]; [intros []|].
  intros [->|Hin] Hx; cbn [rmapM].
  - rewrite Hx. now exists e.
  - destruct (f y) as [b|e0]; cbn [rbind]; [|now exists e0].
    destruct (IH Hin Hx) as (e' & ->). now exists e'.
Qed.

Lemma rmapM_combine {A B} (f : A -> Res B) (xs : list A) (ys : list B) :
  rmapM f xs = Ok ys ->
  length ys = length xs /\ forall x y, In (x, y) (combine xs ys) -> f x = Ok y.
Proof.
  revert ys. induction xs as [|x xs IH]; intros ys; cbn [rmapM].
  - intros [= <-]. split; [reflexivity|intros ? ? []].
  - destruct (f x) as [y|e] eqn:Hx; cbn [rbind]; [|discriminate].
    destruct (rmapM f xs) as [ys'|e]; cbn [rbind]; [|discriminate].
    intros [= <-]. destruct (IH ys' eq_refl) as [Hlen Hall]. split; [cbn; lia|].
    intros x0 y0 [[= <- <-]|Hin]; [exact Hx|now apply Hall].
Qed.

(** X8: when one block of a batch cannot be fetched, the batch is given
    up as a whole: none of its blocks is looked at, the state is left as
    it was and the scan goes on. *)
Theorem unfetchable_block_drops_its_batch objToString toHuman api chain
    (batch : list Z) (b : Z) (e : Exn) (w : World) :
  In b batch ->
  chain b = Throw e ->
  tryCatch (scanBatch objToString toHuman api chain batch) w = (Ok tt, w).
Proof.
  intros Hin Hb. destruct (rmapM_throw chain batch b e Hin Hb) as (e' & He).
  unfold tryCatch, scanBatch, bind, lift. now rewrite He.
Qed.

Lemma unfetchable_block_drops_its_batch_witness :
  tryCatch (scanBatch plainToString plainToHuman strictApi threeBlocks [101; 102; 103]%Z)
           initialWorld
  = (Ok tt, initialWorld).
Proof.
  apply (unfetchable_block_drops_its_batch plainToString plainToHuman strictApi threeBlocks
           [101; 102; 103]%Z 103%Z (ApiError "Unable to retrieve header and parent from supplied hash")).
  - cbn. auto.
  - reflexivity.
Defined.

(** ** Where the records come from *)

Lemma forEachIdx_cons {A} (f : A -> nat -> M unit) (i : nat) (x : A) (xs : list A) (w : World) :
  forEachIdx f i (x :: xs) w
  = match f x i w with
    | (Ok _, w') => forEachIdx f (S i) xs w'
    | (Throw e, w') => (Throw e, w')
    end.
Proof. reflexivity. Qed.

Section Provenance.

Variable objToString : Val -> string.
Variable toHuman : Val -> Val.
Variable api : Api.
Variable chain : Z -> Res (list Extrinsic).

Lemma scanExtrinsic_pointsTo b exs ex idx :
  nth_error exs idx = Some ex ->
  ensures (Counted (pointsTo b exs)) (Counted (pointsTo b exs))
          (scanExtrinsic objToString toHuman api b ex idx).
Proof.
  intros Hnth.
  pose proof (Counted_refl (pointsTo b exs)) as Hrefl.
  pose proof (Counted_trans (pointsTo b exs)) as Htrans.
  unfold scanExtrinsic.
  apply (ensures_bind _ _ Htrans Htrans); [intros w; silent_step|].
  intros _. destruct (ex_signer ex) as [signerString|] eqn:Hsig; [|now apply ensures_ret].
  apply (ensures_bind_lift _ _ Hrefl). intros sec Hsec.
  destruct (is_str sec "utility") eqn:Hu; [|now apply ensures_ret].
  apply is_str_true in Hu. subst sec.
  apply (ensures_bind _ _ Htrans Htrans); [intros w; silent_step|].
  intros _. apply (ensures_bind_lift _ _ Hrefl). intros margs _.
  assert (Hpt : forall r, recordOf api b idx signerString r -> pointsTo b exs r).
  { intros r (Hb & Hi & Hs & _). split; [exact Hb|]. exists ex. rewrite Hi, Hs. auto. }
  eapply ensures_weaken;
    [| |apply (checkAsDerivative_walk objToString toHuman api b idx signerString)].
  - intros w w' H. apply Emitted_Counted. revert H. now apply Emitted_weaken.
  - intros w w' H. apply Interrupted_Counted in H. revert H. now apply Counted_weaken.
Qed.

Lemma scanBlock_pointsTo b (xs : list Extrinsic) :
  forall pre,
    ensures (Counted (pointsTo b (pre ++ xs))) (Counted (pointsTo b (pre ++ xs)))
            (forEachIdx (scanExtrinsic objToString toHuman api b) (length pre) xs).
Proof.
  induction xs as [|x xs IH]; intros pre w.
  - apply Counted_refl.
  - rewrite forEachIdx_cons.
    assert (Hnth : nth_error (pre ++ x :: xs) (length pre) = Some x).
    { rewrite nth_error_app2 by lia. now rewrite Nat.sub_diag. }
    pose proof (scanExtrinsic_pointsTo b (pre ++ x :: xs) x (length pre) Hnth w) as Hx.
    destruct (scanExtrinsic objToString toHuman api b x (length pre) w) as [[[]|e] w1];
      [|exact Hx].
    specialize (IH (pre ++ [x]) w1).
    rewrite length_app, <- app_assoc, Nat.add_1_r in IH. cbn [app length] in IH.
    destruct (forEachIdx _ (S (length pre)) xs w1) as [[u|e] w2];
      exact (Counted_trans _ _ _ _ Hx IH).
Qed.

Lemma scanBatch_pointsTo batch :
  let G r := In (block r) batch
             /\ exists exs, chain (block r) = Ok exs /\ pointsTo (block r) exs r in
  ensures (Counted G) (Counted G) (scanBatch objToString toHuman api chain batch).
Proof.
  intros G.
  pose proof (Counted_refl G) as Hrefl.
  pose proof (Counted_trans G) as Htrans.
  unfold scanBatch. apply (ensures_bind_lift _ _ Hrefl). intros blocks Hblocks.
  destruct (rmapM_combine _ _ _ Hblocks) as [_ Hall].
  apply (ensures_forEach _ _ Hrefl Htrans Htrans). intros [b exs] Hin.
  assert (HG : forall r, pointsTo b exs r -> G r).
  { intros r Hr. assert (Hb : block r = b) by apply Hr. subst G. cbn. rewrite Hb. split.
    - now apply in_combine_l in Hin.
    - exists exs. split; [now apply Hall|exact Hr]. }
  eapply ensures_weaken; [| |apply (scanBlock_pointsTo b exs [])];
    intros w w'; now apply Counted_weaken.
Qed.

Lemma scanBlocks_pointsTo startBlock endBlock B :
  0 < B ->
  let G r := (startBlock <= block r <= endBlock)%Z
             /\ exists exs, chain (block r) = Ok exs /\ pointsTo (block r) exs r in
  ensures (Counted G) (fun _ _ => False)
          (scanBlocks objToString toHuman api chain startBlock endBlock B).
Proof.
  intros HB G.
  pose proof (Counted_refl G) as Hrefl.
  pose proof (Counted_trans G) as Htrans.
  unfold scanBlocks.
  apply (ensures_forEach _ _ Hrefl Htrans); [contradiction|].
  intros batch Hbatch.
  eapply ensures_weaken; [| |apply ensures_tryCatch, (scanBatch_pointsTo batch)].
  - assert (HG : forall r, (In (block r) batch
                            /\ exists exs, chain (block r) = Ok exs
                                           /\ pointsTo (block r) exs r) -> G r).
    { intros r [Hin Hexs]. split; [|exact Hexs].
      apply allBlocks_In. rewrite <- (chunkArray_concat _ B HB).
      apply in_concat. now exists batch. }
    intros w w' [H|H]; revert H; now apply Counted_weaken.
  - auto.
Qed.

End Provenance.



(** ** The debug counters *)

Lemma tallySum_bump (m : gmap string Z) (name : string) :
  tallySum (<[name := (default 0 (m !! name) + 1)%Z]> m) = (tallySum m + 1)%Z.
Proof.
  assert (Hcomm : forall (m' : gmap string Z) (j1 j2 : string) (z1 z2 y : Z),
             j1 <> j2 -> m' !! j1 = Some z1 -> m' !! j2 = Some z2 ->
             (z1 + (z2 + y) = z2 + (z1 + y))%Z) by (intros; lia).
  unfold tallySum. destruct (m !! name) as [v|] eqn:Hv; cbn [default].
  - rewrite <- insert_delete_eq.
    rewrite map_fold_insert_L; [|apply Hcomm|apply lookup_delete_eq].
    rewrite (map_fold_delete_L _ 0%Z name v m); [unfold id; lia|apply Hcomm|exact Hv].
  - rewrite map_fold_insert_L; [unfold id; lia|apply Hcomm|exact Hv].
Qed.

Lemma DebugKept_refl w : DebugKept w w.
Proof. reflexivity. Qed.

Lemma DebugKept_trans w1 w2 w3 : DebugKept w1 w2 -> DebugKept w2 w3 -> DebugKept w1 w3.
Proof. unfold DebugKept. congruence. Qed.

Lemma DebugGrows_refl w : DebugGrows w w.
Proof. unfold DebugGrows. cbn zeta. lia. Qed.

Lemma DebugGrows_trans w1 w2 w3 : DebugGrows w1 w2 -> DebugGrows w2 w3 -> DebugGrows w1 w3.
Proof. unfold DebugGrows. cbn zeta. lia. Qed.

Section Debug.

Variable objToString : Val -> string.
Variable toHuman : Val -> Val.
Variable api : Api.
Variable chain : Z -> Res (list Extrinsic).

Lemma matchAsDerivative_debug callArgs blockNumber extrinsicIndex signer :
  ensures DebugKept DebugKept
          (matchAsDerivative objToString toHuman callArgs api blockNumber
                             extrinsicIndex signer writeDetail_main).
Proof.
  unfold matchAsDerivative.
  apply ensures_bind_lift; [apply DebugKept_refl|]. intros a0 _.
  apply ensures_bind_lift; [apply DebugKept_refl|]. intros n _.
  apply ensures_bind_lift; [apply DebugKept_refl|]. intros innerCall _.
  apply ensures_bind_lift; [apply DebugKept_refl|]. intros d _.
  intros w. unfold bind, countMatch, modify, lift, writeDetail_main.
  destruct (innerCallDetail objToString toHuman innerCall) as [detail|e]; reflexivity.
Qed.

(** Below the top level the debug counters are not touched. *)
Lemma checkAsDerivative_debug_nested callMethod callArgs blockNumber extrinsicIndex signer
    depth :
  depth <> 0 ->
  ensures DebugKept DebugKept
          (checkAsDerivative objToString toHuman callMethod callArgs api blockNumber
                             extrinsicIndex signer writeDetail_main depth).
Proof.
  intros Hdepth.
  apply (ensures_checkAsDerivative _ _ DebugKept_refl DebugKept_refl DebugKept_trans
           DebugKept_trans objToString toHuman api blockNumber extrinsicIndex signer
           writeDetail_main (fun _ _ d => d <> 0)); auto.
  - intros _ _ name H. contradiction.
  - intros. apply matchAsDerivative_debug.
Qed.

(** At the top level the method name is tallied once, before anything
    else is done. *)
Lemma checkAsDerivative_debug_top callMethod callArgs blockNumber extrinsicIndex signer w :
  let w' := snd (checkAsDerivative objToString toHuman callMethod callArgs api blockNumber
                   extrinsicIndex signer writeDetail_main 0 w) in
  match topLevelName objToString callMethod with
  | Some name => Tallied name w w'
  | None => DebugKept w w'
  end.
Proof.
  rewrite checkAsDerivative_eq. cbn [Nat.eqb].
  set (rest := bind (lift (utilityCall callMethod (fun m => is_str m "asDerivative"))) _).
  assert (Hrest : forall w0, DebugKept w0 (snd (rest w0))).
  { assert (H : ensures DebugKept DebugKept rest).
    { subst rest. apply ensures_bind_lift; [apply DebugKept_refl|]. intros isAs _.
      destruct isAs; [apply matchAsDerivative_debug|].
      apply ensures_bind_lift; [apply DebugKept_refl|]. intros isBatch _.
      destruct isBatch; [|apply ensures_ret, DebugKept_refl].
      rewrite forEachCall_eq.
      apply ensures_bind_lift; [apply DebugKept_refl|]. intros callsVec _.
      apply ensures_bind_lift; [apply DebugKept_refl|]. intros callsArr _.
      apply (ensures_forEach _ _ DebugKept_refl DebugKept_trans DebugKept_trans).
      intros nested _.
      destruct nested as [| |str|k|xs|xs|s m a]; try (apply ensures_ret, DebugKept_refl).
      cbn [onNested]. destruct (truthy m); [|apply ensures_ret, DebugKept_refl].
      apply checkAsDerivative_debug_nested. lia. }
    intros w0. specialize (H w0). destruct (rest w0) as [[u|e] w1]; exact H. }
  clearbody rest. unfold topLevelName, bind, lift, ret, bumpUtilityMethod, modify.
  destruct (prop callMethod Ksection) as [sec|e]; cbn [snd]; [|reflexivity].
  destruct (is_str sec "utility"); [|apply Hrest].
  destruct (prop callMethod Kmethod) as [m|e]; cbn [rbind snd]; [|reflexivity].
  destruct (toString objToString m) as [name|e]; cbn [snd]; [|reflexivity].
  match goal with |- Tallied _ _ (snd (rest ?w1)) => pose proof (Hrest w1) as H end.
  unfold DebugKept in H. unfold Tallied. rewrite H. cbn. auto.
Qed.

Lemma scanExtrinsic_debug b ex idx :
  ensures DebugGrows DebugGrows (scanExtrinsic objToString toHuman api b ex idx).
Proof.
  assert (Hgoal : forall w, DebugGrows w (snd (scanExtrinsic objToString toHuman api b ex idx w))).
  { intros w. unfold scanExtrinsic, bind, lift, ret, bumpTotalExtrinsics,
      bumpUtilityExtrinsics, modify.
    destruct (ex_signer ex) as [signerString|];
      [|unfold DebugGrows; cbn; lia].
    destruct (prop (ex_method ex) Ksection) as [sec|e] eqn:Hsec;
      [|unfold DebugGrows; cbn; lia].
    destruct (is_str sec "utility") eqn:Hu; [|unfold DebugGrows; cbn; lia].
    destruct (prop (ex_method ex) Kargs) as [margs|e]; [|unfold DebugGrows; cbn; lia].
    match goal with
    | |- DebugGrows _ (snd (checkAsDerivative _ _ _ ?ca _ _ _ ?s _ 0 ?w2)) =>
        pose proof (checkAsDerivative_debug_top (ex_method ex) ca b idx s w2) as H;
        cbn zeta in H;
        set (w' := snd (checkAsDerivative objToString toHuman (ex_method ex) ca api b idx s
                                          writeDetail_main 0 w2)) in *
    end.
    clearbody w'.
    destruct (topLevelName objToString (ex_method ex)) as [name|].
    - destruct H as (Ht & Hx & Hm). unfold DebugGrows. cbn zeta.
      rewrite Ht, Hx, Hm, tallySum_bump. cbn. lia.
    - unfold DebugKept in H. unfold DebugGrows. cbn zeta. rewrite H. cbn. lia. }
  intros w. specialize (Hgoal w).
  destruct (scanExtrinsic objToString toHuman api b ex idx w) as [[u|e] w']; exact Hgoal.
Qed.

Lemma scanBlocks_debug startBlock endBlock B :
  ensures DebugGrows (fun _ _ => False)
          (scanBlocks objToString toHuman api chain startBlock endBlock B).
Proof.
  unfold scanBlocks.
  apply (ensures_forEach _ _ DebugGrows_refl DebugGrows_trans); [contradiction|].
  intros batch _.
  eapply ensures_weaken; [| |apply ensures_tryCatch].
  - intros w w' [H|H]; exact H.
  - auto.
  - unfold scanBatch. apply (ensures_bind_lift _ _ DebugGrows_refl). intros blocks _.
    apply (ensures_forEach _ _ DebugGrows_refl DebugGrows_trans DebugGrows_trans).
    intros [b exs] _.
    apply (ensures_forEachIdx _ _ DebugGrows_refl DebugGrows_trans DebugGrows_trans).
    intros ex idx _. apply scanExtrinsic_debug.
Qed.

End Debug.




(** ** The [innerCall] field *)

(** X12: when the inner call of a matched [asDerivative] is a call object
    whose [method] is its method name, a string, the record written names
    the inner call 'undefined.undefined': the label is read from
    [innerCall.method.section] and [innerCall.method.method], which a
    string does not have. *)
Theorem innerCall_of_call_object_is_undefined objToString toHuman api blockNumber
    extrinsicIndex signer callArgs inner name w w' :
  index callArgs 1 = Ok inner ->
  prop inner Kmethod = Ok (VStr name) ->
  matchAsDerivative objToString toHuman callArgs api blockNumber extrinsicIndex signer
                    writeDetail_main w = (Ok tt, w') ->
  exists r, sink w' = sink w ++ [r] /\ innerCall r = "undefined.undefined"%string.
Proof.
  intros Hinner Hm. unfold matchAsDerivative, bind, lift, countMatch, modify, writeDetail_main.
  destruct (index callArgs 0) as [a0|e]; [|discriminate].
  destruct (toNumber a0) as [n|e]; [|discriminate].
  rewrite Hinner.
  destruct (deriveAccountCorrect api signer n) as [d|e]; [|discriminate].
  unfold innerCallDetail. rewrite Hm. cbn [rbind prop].
  destruct (prop inner Kargs) as [iargs|e]; cbn [rbind]; [|discriminate].
  destruct (humanArgs toHuman iargs) as [hargs|e]; cbn [rbind]; [|discriminate].
  intros [= <-]. eexists. split; reflexivity.
Qed.

Lemma innerCall_of_call_object_is_undefined_witness :
  exists r,
    sink (snd (matchAsDerivative plainToString plainToHuman asDerivative5_args strictApi
                 101 3 alice writeDetail_main initialWorld)) = [r]
    /\ innerCall r = "undefined.undefined"%string.
Proof.
  assert (Hrun : fst (matchAsDerivative plainToString plainToHuman asDerivative5_args
                        strictApi 101 3 alice writeDetail_main initialWorld) = Ok tt)
    by (vm_compute; reflexivity).
  destruct (matchAsDerivative plainToString plainToHuman asDerivative5_args strictApi
              101 3 alice writeDetail_main initialWorld) as [res w'] eqn:Hw.
  cbn [fst snd] in Hrun |- *. subst res.
  exact (innerCall_of_call_object_is_undefined plainToString plainToHuman strictApi 101 3
           alice asDerivative5_args remark "remark" initialWorld w' eq_refl eq_refl Hw).
Defined.

(** ** The quick scan *)

Lemma countMatches_nonneg xs : (0 <= countMatches xs)%Z.
Proof. unfold countMatches. lia. Qed.

Lemma countMatches_cons x xs :
  countMatches (x :: xs)
  = ((if humanCallMatches x then 1 else 0) + countMatches xs)%Z.
Proof.
  unfold countMatches. rewrite filter_cons.
  destruct (humanCallMatches x) eqn:Hx.
  - rewrite decide_True by reflexivity. cbn [length]. lia.
  - rewrite decide_False by discriminate. lia.
Qed.

(** The loop of lines 72-77 over the elements of a batch. *)
Lemma fold_hits (xs : list Val) :
  forall t,
    let t' := fold_left (fun t call => if humanCallMatches call then hit t else t) xs t in
    found t' = (found t + countMatches xs)%Z
    /\ hasAsDerivative t' = hasAsDerivative t || (0 <? countMatches xs)%Z
    /\ utilityCount t' = utilityCount t.
Proof.
  induction xs as [|x xs IH]; intros t; cbn [fold_left].
  - cbn zeta. change (countMatches []) with 0%Z.
    rewrite Z.ltb_irrefl, orb_false_r. repeat split; lia.
  - specialize (IH (if humanCallMatches x then hit t else t)).
    cbn zeta in IH |- *. destruct IH as (Hf & Hh & Hu).
    rewrite Hf, Hh, Hu, countMatches_cons.
    pose proof (countMatches_nonneg xs) as Hn.
    destruct (humanCallMatches x); cbn [hit found hasAsDerivative utilityCount].
    + rewrite (proj2 (Z.ltb_lt 0 (1 + countMatches xs))) by lia.
      rewrite orb_true_r. repeat split; lia.
    + repeat split; lia.
Qed.

Lemma quickScanExtrinsic_tally toHuman method t t' :
  quickScanExtrinsic toHuman method t = Ok t' ->
  (found t <= found t')%Z
  /\ hasAsDerivative t' = hasAsDerivative t || (found t <? found t')%Z
  /\ (t' = t
      \/ (prop method Ksection = Ok (VStr "utility")
          /\ utilityCount t' = (utilityCount t + 1)%Z)).
Proof.
  assert (Hsame : forall flag a, flag = flag || (a <? a)%Z)
    by (intros; now rewrite Z.ltb_irrefl, orb_false_r).
  unfold quickScanExtrinsic.
  destruct (prop method Ksection) as [sec|e]; cbn [rbind]; [|discriminate].
  destruct (is_str sec "utility") eqn:Hu.
  2:{ intros [= <-]. split; [lia|]. split; [apply Hsame|now left]. }
  apply is_str_true in Hu. subst sec.
  destruct (prop method Kmethod) as [m|e]; cbn [rbind]; [|discriminate].
  set (t1 := {| hasAsDerivative := hasAsDerivative t;
                utilityCount := (utilityCount t + 1)%Z;
                found := found t |}).
  set (t2 := if is_str m "asDerivative" then hit t1 else t1).
  assert (H2 : (found t <= found t2)%Z
               /\ hasAsDerivative t2 = hasAsDerivative t || (found t <? found t2)%Z
               /\ utilityCount t2 = (utilityCount t + 1)%Z).
  { subst t2. destruct (is_str m "asDerivative"); cbn.
    - rewrite (proj2 (Z.ltb_lt (found t) (found t + 1))) by lia.
      rewrite orb_true_r. repeat split; lia.
    - repeat split; [lia|apply Hsame]. }
  clearbody t2. destruct H2 as (Hf2 & Hh2 & Hu2).
  assert (Hend : forall t3, found t3 = found t2 -> hasAsDerivative t3 = hasAsDerivative t2 ->
                            utilityCount t3 = utilityCount t2 ->
                            (found t <= found t3)%Z
                            /\ hasAsDerivative t3 = hasAsDerivative t || (found t <? found t3)%Z
                            /\ (t3 = t
                                \/ (Ok (VStr "utility") = Ok (VStr "utility")
                                    /\ utilityCount t3 = (utilityCount t + 1)%Z))).
  { intros t3 Hf Hh Hu. rewrite Hf, Hh, Hu. split; [exact Hf2|]. split; [exact Hh2|].
    right. split; [reflexivity|exact Hu2]. }
  destruct (is_str m "batch" || is_str m "batchAll"); [|intros [= <-]; now apply Hend].
  destruct (prop method Kargs) as [args|e]; cbn [rbind]; [|discriminate].
  destruct (index args 0) as [calls|e]; cbn [rbind]; [|discriminate].
  destruct (truthy calls); [|intros [= <-]; now apply Hend].
  destruct (isArray (humanOrSelf toHuman calls)) as [xs|]; [|intros [= <-]; now apply Hend].
  intros [= <-].
  destruct (fold_hits xs t2) as (Hf & Hh & Hu). cbn zeta in Hf, Hh, Hu.
  pose proof (countMatches_nonneg xs) as Hn.
  rewrite Hf, Hh, Hu, Hh2. split; [lia|]. split.
  - rewrite <- orb_assoc. f_equal.
    destruct (found t <? found t2)%Z eqn:H1; destruct (0 <? countMatches xs)%Z eqn:H3;
      destruct (found t <? found t2 + countMatches xs)%Z eqn:H4; try reflexivity;
      rewrite ?Z.ltb_lt, ?Z.ltb_ge in *; lia.
  - right. split; [reflexivity|exact Hu2].
Qed.



(** *** The loop over the blocks *)

Lemma sorted_snoc (l : list Z) (n : Z) :
  StronglySorted Z.lt l -> Forall (fun x => (x < n)%Z) l -> StronglySorted Z.lt (l ++ [n]).
Proof.
  induction 1 as [|x l Hl IH Hx]; intros Hn; cbn [app].
  - repeat constructor.
  - inversion Hn as [|? ? Hxn Hrest]; subst. constructor; [now apply IH|].
    apply Forall_app. split; [exact Hx|]. now constructor.
Qed.

Lemma map_fst_combine {A B} (xs : list A) (ys : list B) :
  length ys = length xs -> map fst (combine xs ys) = xs.
Proof.
  revert ys. induction xs as [|x xs IH]; intros [|y ys] Hlen; cbn in *;
    try reflexivity; try discriminate.
  f_equal. apply IH. lia.
Qed.

Lemma quickInv_mono chain s c lo lo' st :
  (lo <= lo')%Z -> quickInv chain s c lo st -> quickInv chain s c lo' st.
Proof.
  intros Hlo (Hs & Hall & Hlen). repeat split; auto.
  eapply Forall_impl; [exact Hall|]. cbn. intros b (? & ? & ?). repeat split; auto; lia.
Qed.

Lemma quickScanExtrinsics_tally toHuman (exs : list Extrinsic) :
  forall t r t',
    quickScanExtrinsics toHuman exs t = (r, t') ->
    (found t <= found t')%Z
    /\ hasAsDerivative t' = hasAsDerivative t || (found t <? found t')%Z
    /\ ((found t < found t')%Z ->
        exists ex, In ex exs /\ prop (ex_method ex) Ksection = Ok (VStr "utility")).
Proof.
  induction exs as [|ex exs IH]; intros t r t'; cbn [quickScanExtrinsics].
  - intros [= <- <-]. rewrite Z.ltb_irrefl, orb_false_r. repeat split; lia.
  - destruct (quickScanExtrinsic toHuman (ex_method ex) t) as [t1|e] eqn:Hx.
    + intros Hrest. apply IH in Hrest as (Hf & Hh & Hu).
      apply quickScanExtrinsic_tally in Hx as (Hf1 & Hh1 & Hu1).
      split; [lia|]. split.
      * rewrite Hh, Hh1, <- orb_assoc. f_equal.
        destruct (found t <? found t1)%Z eqn:H1; destruct (found t1 <? found t')%Z eqn:H2;
          destruct (found t <? found t')%Z eqn:H3; try reflexivity;
          rewrite ?Z.ltb_lt, ?Z.ltb_ge in *; lia.
      * intros Hlt. destruct (Z.eq_dec (found t) (found t1)) as [Heq|Hne].
        -- destruct Hu as (ex' & Hin & Hsec); [lia|]. exists ex'. split; [now right|exact Hsec].
        -- destruct Hu1 as [->|[Hsec _]]; [contradiction|].
           exists ex. split; [now left|exact Hsec].
    + intros [= <- <-]. rewrite Z.ltb_irrefl, orb_false_r. repeat split; lia.
Qed.

Section QuickFacts.

Variable toHuman : Val -> Val.
Variable chain : Z -> Res (list Extrinsic).
Variables startBlock currentBlock : Z.

Local Abbreviation inv := (quickInv chain startBlock currentBlock).

Lemma quickScanBlock_inv lo n exs st :
  inv lo st -> (lo <= n)%Z -> (startBlock <= n <= currentBlock)%Z -> chain n = Ok exs ->
  inv (n + 1)%Z (snd (quickScanBlock toHuman n exs st)).
Proof.
  intros Hinv Hlo Hn Hchain. unfold quickScanBlock.
  destruct (quickScanExtrinsics toHuman exs _) as [r t] eqn:Hrun.
  apply quickScanExtrinsics_tally in Hrun as (Hf & Hh & Hu). cbn in Hf, Hh, Hu.
  pose proof (quickInv_mono chain startBlock currentBlock lo (n + 1) st ltac:(lia) Hinv)
    as (Hs & Hall & Hlen).
  destruct r as [[]|e]; cbn [snd].
  - destruct (hasAsDerivative t).
    + symmetry in Hh. apply Z.ltb_lt in Hh.
      repeat split; cbn [q_found q_foundBlocks].
      * apply sorted_snoc; [exact Hs|].
        destruct Hinv as (_ & Hall0 & _).
        eapply Forall_impl; [exact Hall0|]. cbn. intros b (_ & Hb & _). lia.
      * apply Forall_app. split; [exact Hall|]. constructor; [|constructor].
        split; [exact Hn|]. split; [lia|].
        destruct (Hu Hh) as (ex & Hin & Hsec). now exists exs, ex.
      * rewrite length_app. cbn [length]. lia.
    + repeat split; cbn [q_found q_foundBlocks]; auto. lia.
  - repeat split; cbn [q_found q_foundBlocks]; auto. lia.
Qed.

Lemma quickScanBlocks_inv (blocks : list (Z * list Extrinsic)) :
  forall lo hi st,
    inv lo st -> (lo <= hi)%Z ->
    StronglySorted Z.lt (map fst blocks) ->
    Forall (fun p => (lo <= fst p < hi)%Z /\ (startBlock <= fst p <= currentBlock)%Z
                     /\ chain (fst p) = Ok (snd p)) blocks ->
    inv hi (snd (quickScanBlocks toHuman blocks st)).
Proof.
  induction blocks as [|[n exs] rest IH]; intros lo hi st Hinv Hlo Hsorted Hall;
    cbn [quickScanBlocks].
  - now apply (quickInv_mono chain startBlock currentBlock lo hi).
  - inversion Hall as [|? ? (Hn & Hrange & Hchain) Hrest]; subst. cbn [fst snd] in *.
    inversion Hsorted as [|? ? Htail Hhead]; subst.
    pose proof (quickScanBlock_inv lo n exs st Hinv ltac:(lia) Hrange Hchain) as Hb.
    destruct (quickScanBlock toHuman n exs st) as [[u|e] st1]; cbn [snd] in *.
    + apply (IH (n + 1)%Z hi st1 Hb ltac:(lia) Htail).
      rewrite Forall_forall in Hrest. rewrite Forall_forall in Hhead.
      apply Forall_forall. intros p Hp.
      destruct (Hrest p Hp) as (Hp1 & Hp2 & Hp3).
      assert (Hlt : (n < fst p)%Z).
      { apply Hhead. apply list_elem_of_In, in_map. now apply list_elem_of_In. }
      repeat split; auto; lia.
    + apply (quickInv_mono chain startBlock currentBlock (n + 1) hi); [lia|exact Hb].
Qed.

Lemma quickScanBatch_inv b st :
  inv b st -> (startBlock <= b)%Z ->
  inv (b + batchSize)%Z (quickScanBatch toHuman chain b currentBlock st).
Proof.
  intros Hinv Hb. unfold quickScanBatch. cbn zeta.
  assert (Hsize : batchSize = 100%Z) by reflexivity.
  destruct (rmapM chain (allBlocks b (Z.min (b + batchSize - 1) currentBlock)))
    as [blocks|e] eqn:Hfetch.
  - destruct (rmapM_combine _ _ _ Hfetch) as [Hlen Hok].
    apply (quickScanBlocks_inv _ b (b + batchSize)%Z st Hinv ltac:(lia)).
    + rewrite map_fst_combine by exact Hlen. apply allBlocks_sorted.
    + apply Forall_forall. intros [n exs] Hin. apply list_elem_of_In in Hin.
      cbn [fst snd]. pose proof (in_combine_l _ _ _ _ Hin) as Hn.
      apply allBlocks_In in Hn. repeat split; try lia. now apply Hok.
  - apply (quickInv_mono chain startBlock currentBlock b); [lia|exact Hinv].
Qed.

Lemma quickScanLoop_inv (fuel : nat) :
  forall b st,
    inv b st -> (startBlock <= b)%Z ->
    exists lo, inv lo (quickScanLoop toHuman chain fuel b currentBlock st).
Proof.
  induction fuel as [|fuel IH]; intros b st Hinv Hb; cbn [quickScanLoop].
  - now exists b.
  - destruct (b <=? currentBlock)%Z; [|now exists b].
    apply IH; [now apply quickScanBatch_inv|].
    assert (Hsize : batchSize = 100%Z) by reflexivity. lia.
Qed.

(** Once the loop variable has passed [currentBlock] more rounds change
    nothing. *)
Lemma quickScanLoop_fuel (fuel : nat) :
  forall b st extra,
    (currentBlock - b + 1 <= Z.of_nat fuel)%Z ->
    quickScanLoop toHuman chain (fuel + extra) b currentBlock st
    = quickScanLoop toHuman chain fuel b currentBlock st.
Proof.
  assert (Hsize : batchSize = 100%Z) by reflexivity.
  induction fuel as [|fuel IH]; intros b st extra Hfuel.
  - cbn [Nat.add quickScanLoop]. destruct extra as [|extra]; [reflexivity|].
    cbn [quickScanLoop]. destruct (b <=? currentBlock)%Z eqn:Hle; [|reflexivity].
    apply Z.leb_le in Hle. lia.
  - cbn [Nat.add quickScanLoop]. destruct (b <=? currentBlock)%Z; [|reflexivity].
    apply IH. lia.
Qed.

End QuickFacts.

(** X14: the quick scan starts no lower than block 1; the blocks it
    reports are in strictly ascending order, lie between the start block
    and the current block, were fetched and hold an extrinsic whose
    top-level call is in the utility section; there are no more of them
    than matches counted in [found]; and the loop has ended by itself:
    further rounds would change nothing. *)
Theorem findAsDerivativeBlocks_reports toHuman chain (currentBlock blocksToScan : Z) :
  let startBlock := quickStartBlock currentBlock blocksToScan in
  let st := findAsDerivativeBlocks toHuman chain currentBlock blocksToScan in
  (1 <= startBlock)%Z
  /\ StronglySorted Z.lt (q_foundBlocks st)
  /\ Forall (fun b => (startBlock <= b <= currentBlock)%Z /\ holdsUtilityExtrinsic chain b)
            (q_foundBlocks st)
  /\ (Z.of_nat (length (q_foundBlocks st)) <= q_found st)%Z
  /\ (forall extra,
        quickScanLoop toHuman chain (Z.to_nat (currentBlock - startBlock + 1) + extra)
                      startBlock currentBlock {| q_found := 0; q_foundBlocks := [] |}
        = st).
Proof.
  intros startBlock st. split; [unfold startBlock, quickStartBlock; lia|].
  assert (Hinit : quickInv chain startBlock currentBlock startBlock
                           {| q_found := 0; q_foundBlocks := [] |}).
  { repeat split; cbn; [constructor|constructor|lia]. }
  destruct (quickScanLoop_inv toHuman chain startBlock currentBlock
              (Z.to_nat (currentBlock - startBlock + 1)) startBlock _ Hinit ltac:(lia))
    as (lo & Hs & Hall & Hlen).
  fold startBlock in st. split; [exact Hs|]. split.
  - eapply Forall_impl; [exact Hall|]. cbn. intros b (? & _ & ?). now split.
  - split; [exact Hlen|]. intros extra. apply quickScanLoop_fuel. lia.
Qed.

(** ** [checkAccountDerivatives] *)

Section AccountFacts.

Variable api : Api.
Variable accountInfo : list byte -> Res (Z * Z).
Variable account : string.

Local Abbreviation line := (lineOf api accountInfo account).

Lemma checkIndices_lines (indices : list Z) :
  forall printed r out,
    StronglySorted Z.lt indices ->
    checkIndices api accountInfo account indices printed = (r, out) ->
    exists new,
      out = printed ++ new
      /\ StronglySorted Z.lt (map line_index new)
      /\ Forall (fun l => In (line_index l) indices /\ line l) new
      /\ (r = Ok tt ->
          forall i, In i indices ->
            exists d free nonce,
              deriveAccountCorrect api account i = Ok d
              /\ accountInfo d = Ok (free, nonce)
              /\ ((0 < free \/ 0 < nonce)%Z ->
                  In {| line_index := i; line_account := accountToString api d;
                        line_free := free; line_nonce := nonce |} new)).
Proof.
  induction indices as [|i rest IH]; intros printed r out Hsorted; cbn [checkIndices].
  - intros [= <- <-]. exists []. rewrite app_nil_r.
    repeat split; [constructor|constructor|]. intros _ i [].
  - inversion Hsorted as [|? ? Htail Hhead]; subst.
    rewrite checkAccountDerivatives_derived_eq.
    destruct (deriveAccountCorrect api account i) as [d|e] eqn:Hd.
    2:{ intros [= <- <-]. exists []. rewrite app_nil_r.
        repeat split; [constructor|constructor|discriminate]. }
    destruct (accountInfo d) as [[free nonce]|e] eqn:Hinfo.
    2:{ intros [= <- <-]. exists []. rewrite app_nil_r.
        repeat split; [constructor|constructor|discriminate]. }
    intros Hrun. apply IH in Hrun as (new & Hout & Hs & Hall & Hdone); [|exact Htail].
    assert (Hlater : Forall (fun l => (i < line_index l)%Z) new).
    { eapply Forall_impl; [exact Hall|]. cbn. intros l [Hin _].
      rewrite Forall_forall in Hhead. apply Hhead. now apply list_elem_of_In. }
    assert (Hall' : Forall (fun l => In (line_index l) (i :: rest) /\ line l) new).
    { eapply Forall_impl; [exact Hall|]. cbn. intros l [Hin Hl]. split; [now right|exact Hl]. }
    destruct ((0 <? free)%Z || (0 <? nonce)%Z) eqn:Hused.
    + eexists (_ :: new). split; [now rewrite Hout, <- app_assoc|].
      split; [|split].
      * cbn [map line_index]. constructor; [exact Hs|].
        apply Forall_map. exact Hlater.
      * constructor; [|exact Hall']. split; [now left|].
        exists d. cbn. repeat split; auto.
        apply orb_true_iff in Hused as [H|H]; apply Z.ltb_lt in H; auto.
      * intros Hr j [<-|Hin].
        -- exists d, free, nonce. repeat split; auto. intros _. now left.
        -- destruct (Hdone Hr j Hin) as (d' & f' & n' & H1 & H2 & H3).
           exists d', f', n'. repeat split; auto. intros Hpos. right. now apply H3.
    + exists new. split; [exact Hout|]. split; [exact Hs|]. split; [exact Hall'|].
      intros Hr j [<-|Hin].
      * exists d, free, nonce. repeat split; auto. intros Hpos.
        apply orb_false_iff in Hused as [H1 H2].
        apply Z.ltb_ge in H1. apply Z.ltb_ge in H2. lia.
      * now apply Hdone.
Qed.

End AccountFacts.



(** ** Batches of call objects *)

Lemma call_objects_are_passed_over objToString toHuman api blockNumber extrinsicIndex signer
    writeDetail (calls : list Val) depth w :
  Forall (fun c => exists s name a, c = VObj s (VStr name) a) calls ->
  forEach (fun nested =>
             onNested nested (fun m a =>
               checkAsDerivative objToString toHuman m a api blockNumber extrinsicIndex
                                 signer writeDetail (S depth)))
          calls w
  = (Ok tt, w).
Proof.
  induction 1 as [|c calls (s & name & a & ->) _ IH]; [reflexivity|].
  cbn [forEach onNested]. destruct (truthy (VStr name)); [|exact IH].
  rewrite (checkAsDerivative_other_section objToString toHuman api blockNumber
             extrinsicIndex signer writeDetail (VStr name) a (S depth) VUndef w eq_refl eq_refl).
  exact IH.
Qed.

(** X16: a utility batch, at any depth, whose elements are call objects
    with the method name in [method], is walked to its end without a
    match, whatever calls it holds: the walk returns, writes no record
    and leaves the scan counters as they were. *)
Theorem batch_of_call_objects_is_not_searched objToString toHuman api blockNumber
    extrinsicIndex signer (m margs callArgs callsVec : Val) (calls : list Val) depth w :
  is_str m "batch" || is_str m "batchAll" = true ->
  index callArgs 0 = Ok callsVec ->
  toCallsArr callsVec = Ok calls ->
  Forall (fun c => exists s name a, c = VObj s (VStr name) a) calls ->
  let res := checkAsDerivative objToString toHuman (VObj (VStr "utility") m margs) callArgs
               api blockNumber extrinsicIndex signer writeDetail_main depth w in
  fst res = Ok tt /\ sink (snd res) = sink w /\ counters (snd res) = counters w.
Proof.
  intros Hm Hvec Harr Hcalls res. subst res.
  rewrite checkAsDerivative_eq, forEachCall_eq.
  assert (Hname : exists name, m = VStr name /\ is_str m "asDerivative" = false).
  { destruct m as [| |name| | | | ]; try discriminate. exists name. split; [reflexivity|].
    cbn in Hm |- *. destruct (String.eqb name "asDerivative") eqn:Hn; [|reflexivity].
    apply String.eqb_eq in Hn. subst name. discriminate. }
  destruct Hname as (name & -> & Hnot).
  unfold bind, lift, ret, utilityCall, bumpUtilityMethod, modify.
  cbn [prop rbind toString]. change (is_str (VStr "utility") "utility") with true.
  cbn iota. rewrite Hnot, Hm, Hvec, Harr.
  destruct (Nat.eqb depth 0); cbn iota; rewrite call_objects_are_passed_over by exact Hcalls;
    repeat split.
Qed.

Lemma batch_of_call_objects_is_not_searched_witness :
  sink (snd (checkAsDerivative plainToString plainToHuman nestedCalls nestedCalls_args
               strictApi 101 3 alice writeDetail_main 0 initialWorld)) = [].
Proof.
  destruct (batch_of_call_objects_is_not_searched plainToString plainToHuman strictApi 101 3
              alice (VStr "batch") nestedCalls_args nestedCalls_args
              (VVec [call "utility" "batchAll" [VVec [asDerivative5]]])
              [call "utility" "batchAll" [VVec [asDerivative5]]] 0 initialWorld)
    as (_ & Hs & _).
  - reflexivity.
  - reflexivity.
  - reflexivity.
  - constructor; [|constructor]. eexists _, _, _. reflexivity.
  - exact Hs.
Defined.

(** ** The details file *)

Lemma string_app_assoc (a b c : string) : ((a ++ b) ++ c = a ++ (b ++ c))%string.
Proof.
  induction a as [|ch a IH]; [reflexivity|].
  change (String ch ((a ++ b) ++ c) = String ch (a ++ (b ++ c)))%string. now rewrite IH.
Qed.

Lemma written_after (stringify : MatchRecord -> string) (details : list MatchRecord) :
  forall pre x,
    written (fold_left (fun ws detail => writeDetail_stream stringify detail ws) details
                       {| firstDetail := false; written := (pre ++ x)%string |})
    = (pre ++ String.concat "," (x :: map (fun r => newline ++ stringify r) details))%string.
Proof.
  induction details as [|r rest IH]; intros pre x; cbn [fold_left map].
  - reflexivity.
  - unfold writeDetail_stream at 2. cbn [firstDetail written].
    assert (Hshift : ((pre ++ x) ++ "," ++ newline ++ stringify r
                      = (pre ++ x ++ ",") ++ (newline ++ stringify r))%string).
    { now rewrite !string_app_assoc. }
    rewrite Hshift, IH. cbn [String.concat]. now rewrite !string_app_assoc.
Qed.

(** X17: the details file is one JSON array whatever the scan finds: an
    opening bracket, the records in the order written, each on a line of
    its own and separated by single commas with none before the first or
    after the last, and the closing bracket on a last line. *)
Theorem details_file_is_one_array (stringify : MatchRecord -> string)
    (details : list MatchRecord) :
  detailsFile stringify details
  = ("[" ++ String.concat "," (map (fun r => newline ++ stringify r) details)
         ++ newline ++ "]")%string.
Proof.
  unfold detailsFile, detailsClose. destruct details as [|r rest]; [reflexivity|].
  cbn [fold_left]. unfold writeDetail_stream at 2, detailsOpen. cbn [firstDetail written].
  change ("" ++ newline ++ stringify r)%string with (newline ++ stringify r)%string.
  rewrite written_after. cbn [map]. now rewrite !string_app_assoc.
Qed.
